(** * NeRFRenderCore, [src/common.h]: the accessor generators and the
      device snapshot macro

    The header defines two families of macros.

    - [READWRITE_PROPERTY] and [READONLY_PROPERTY] paste a private data
      member and public accessor functions into a class body.  They are
      embedded as functions producing the list of generated members; a class
      body is a list of members, an object is a finite map from data-member
      names to values, and a call from outside the class resolves a symbol
      among the public members.

    - [CHECK_DATA] declares a host vector, enqueues a device-to-host copy on
      a stream and synchronizes the stream.  It is embedded in a state and
      exception monad over an explicit model of the accelerator runtime. *)

From Stdlib Require Import ZArith Lia.
From stdpp Require Import base option list gmap strings.

Open Scope Z_scope.

(* ===================================================================== *)
(** * Part I.  Definitions                                                *)
(* ===================================================================== *)

Module Accessor.

Section Members.

(** The values that data members hold.  The macro argument [type] is a
    token; it is kept as the spelling of the type.  Values are taken as
    already converted to the declared type, as C++ does at a default
    member initializer and at a by-value parameter. *)
Context {value : Type}.

Inductive access := private | public.

Inductive decl :=
| field (type name : string) (default : value)
    (* type name = default; *)
| getter (type name : string)
    (* type get_##name() const { return name; } *)
| setter (type name : string).
    (* void set_##name(type value) { name = value; } *)

Definition member : Type := access * decl.

Definition READWRITE_PROPERTY (type name : string) (default : value)
  : list member :=
  [ (private, field type name default);
    (public, getter type name);
    (public, setter type name) ].

Definition READONLY_PROPERTY (type name : string) (default : value)
  : list member :=
  [ (private, field type name default);
    (public, getter type name) ].

(** The identifier a member declares; [##] pastes the prefix and the
    property name into one token. *)
Definition symbol (d : decl) : string :=
  match d with
  | field _ name _ => name
  | getter _ name => "get_" +:+ name
  | setter _ name => "set_" +:+ name
  end.

Definition symbols (body : list member) : list string :=
  (λ m, symbol m.2) <$> body.

(** A class body is accepted by the compiler only if no two members
    declare the same identifier. *)
Definition wf_class (body : list member) : Prop := NoDup (symbols body).

(** Construction runs the default member initializers in declaration
    order. *)
Definition init_member (o : gmap string value) (m : member)
  : gmap string value :=
  match m.2 with
  | field _ name default => <[name := default]> o
  | _ => o
  end.

Definition construct (body : list member) : gmap string value :=
  foldl init_member ∅ body.

Definition find_member (body : list member) (sym : string)
  : option member :=
  find (λ m, bool_decide (symbol m.2 = sym)) body.

(** The body of the generated setter, [{ name = value; }], run with the
    parameter [value] bound to [v].  Inside the body the identifier [value]
    denotes the parameter, which hides a data member of the same name: for
    a property called [value] the statement reads [value = value;], assigns
    the parameter to itself and leaves the object as it is. *)
Definition assign_from_parameter (name : string) (v : value)
    (o : gmap string value) : gmap string value :=
  if decide (name = "value") then o else <[name := v]> o.

(** A call [obj.sym(args)] from outside the declaring scope.  [None]
    stands for a call the compiler rejects: no such member, a private
    member, a data member, or the wrong number of arguments.  Otherwise the
    result is the returned value ([None] for [void]) and the object after
    the call. *)
Definition call (body : list member) (sym : string) (args : list value)
    (o : gmap string value) : option (option value * gmap string value) :=
  match find_member body sym with
  | Some (public, getter _ name) =>
      match args with
      | [] => v ← o !! name; Some (Some v, o)
      | _ => None
      end
  | Some (public, setter _ name) =>
      match args with
      | [v] => Some (None, assign_from_parameter name v o)
      | _ => None
      end
  | _ => None
  end.

(** A class whose members all come from the two macros. *)
Inductive property_kind := readwrite | readonly.

Record property := Property {
  p_kind : property_kind;
  p_type : string;
  p_name : string;
  p_default : value
}.

Definition expand (p : property) : list member :=
  match p_kind p with
  | readwrite => READWRITE_PROPERTY (p_type p) (p_name p) (p_default p)
  | readonly => READONLY_PROPERTY (p_type p) (p_name p) (p_default p)
  end.

Definition class_body (ps : list property) : list member :=
  concat (expand <$> ps).


End Members.

Arguments decl : clear implicits.
Arguments member : clear implicits.
Arguments property : clear implicits.

Section Class_text.

(** ** The macros as written

    The replacement text of a property macro interleaves access labels with
    declarations:
<<
    private: type name = default;
    public:  type get_##name() const { return name; }
             void set_##name(type value) { name = value; }
>>
    A label stays in force until the next label, also beyond the end of the
    macro's text. *)
Context {value : Type}.

Inductive item :=
| access_label (a : access)        (* private: or public: *)
| declaration (d : decl value).

Definition READWRITE_PROPERTY_text (type name : string) (default : value)
  : list item :=
  [ access_label private;
    declaration (field type name default);
    access_label public;
    declaration (getter type name);
    declaration (setter type name) ].

Definition READONLY_PROPERTY_text (type name : string) (default : value)
  : list item :=
  [ access_label private;
    declaration (field type name default);
    access_label public;
    declaration (getter type name) ].

Definition expand_text (p : property value) : list item :=
  match p_kind p with
  | readwrite => READWRITE_PROPERTY_text (p_type p) (p_name p) (p_default p)
  | readonly => READONLY_PROPERTY_text (p_type p) (p_name p) (p_default p)
  end.

(** Members of a [class] are private until a label says otherwise, members
    of a [struct] public. *)
Inductive class_key := key_class | key_struct.

Definition default_access (k : class_key) : access :=
  match k with
  | key_class => private
  | key_struct => public
  end.

(** Give every declaration the access of the label in force. *)
Fixpoint elaborate (cur : access) (text : list item) : list (member value) :=
  match text with
  | [] => []
  | access_label a :: text' => elaborate a text'
  | declaration d :: text' => (cur, d) :: elaborate cur text'
  end.

(** The access in force after a piece of text. *)
Fixpoint access_after (cur : access) (text : list item) : access :=
  match text with
  | [] => cur
  | access_label a :: text' => access_after a text'
  | declaration _ :: text' => access_after cur text'
  end.

(** A sequence of calls from outside the class, each on the object the
    previous one left; [None] if one of them is rejected. *)
Fixpoint run_calls (body : list (member value))
    (calls : list (string * list value)) (o : gmap string value)
  : option (gmap string value) :=
  match calls with
  | [] => Some o
  | (sym, args) :: rest =>
      match call body sym args o with
      | Some (_, o') => run_calls body rest o'
      | None => None
      end
  end.


End Class_text.

Arguments item : clear implicits.

(** A small class used to exercise the definitions:
<<
    class Camera {
      READWRITE_PROPERTY(int, width, 640)
      READONLY_PROPERTY(int, frame, 0)
      READWRITE_PROPERTY(int, height, 480)
    };
>> *)
Definition camera_props : list (property Z) :=
  [ Property readwrite "int" "width" 640;
    Property readonly "int" "frame" 0;
    Property readwrite "int" "height" 480 ].

Definition camera : list (member Z) := class_body camera_props.

(** A class that cannot be compiled: the getter pasted for [x] is named
    like the second property's data member.
<<
    class Clash {
      READONLY_PROPERTY(int, x, 0)
      READWRITE_PROPERTY(int, get_x, 1)
    };
>> *)
Definition clash_props : list (property Z) :=
  [ Property readonly "int" "x" 0;
    Property readwrite "int" "get_x" 1 ].

(** A class with a read-write property called like the setter's parameter:
<<
    class Gauge {
      READWRITE_PROPERTY(int, value, 0)
      READWRITE_PROPERTY(int, scale, 1)
    };
>> *)
Definition gauge_props : list (property Z) :=
  [ Property readwrite "int" "value" 0;
    Property readwrite "int" "scale" 1 ].

Definition gauge : list (member Z) := class_body gauge_props.


End Accessor.

Module Snapshot.

(** ** The accelerator runtime

    [<tiny-cuda-nn/common.h>] and the CUDA runtime it wraps are external to
    this repository.  The three operations the header consumes
    (enqueue-async-copy, synchronize, check-or-throw) are modelled after
    section 6 of the specification: a stream is an ordered queue of pending
    operations, an enqueue appends to it without running anything, and a
    synchronize runs the queue of that one stream in issue order. *)

Inductive cudaError_t :=
| cudaSuccess
| cudaErrorInvalidValue
| cudaErrorInvalidResourceHandle
| cudaErrorIllegalAddress
| cudaErrorLaunchFailure.

#[global] Instance cudaError_t_eq_dec : EqDecision cudaError_t.
Proof. solve_decision. Defined.

(** The only direction this header passes. *)
Inductive cudaMemcpyKind := cudaMemcpyDeviceToHost.

(** What a statement of the macro can throw. *)
Inductive exn :=
| cuda_runtime_error (e : cudaError_t)   (* thrown by CUDA_CHECK_THROW *)
| std_length_error                       (* std::vector: n > max_size() *)
| std_bad_alloc.                         (* std::vector: allocation failed *)

Inductive outcome (A : Type) :=
| Normal (a : A)
| Throw (e : exn).
Arguments Normal {A} a.
Arguments Throw {A} e.

(** ** The state and exception monad of host code

    A statement runs in a state, ends normally or by throwing, and leaves a
    state behind in both cases. *)
Section Monad.

Context {St : Type}.

Definition M (A : Type) : Type := St → outcome A * St.

Definition ret {A} (a : A) : M A := λ st, (Normal a, st).

Definition throw {A} (e : exn) : M A := λ st, (Throw e, st).

Definition bind {A B} (c : M A) (k : A → M B) : M B :=
  λ st,
    match c st with
    | (Normal a, st') => k a st'
    | (Throw e, st') => (Throw e, st')
    end.

End Monad.

Arguments M St A : clear implicits.

Notation "'let!' x ':=' c 'in' k" := (bind c (λ x, k))
  (at level 10, x name, c at level 100, k at level 200).
Notation "c ';;;' k" := (bind c (λ _, k))
  (at level 100, k at level 200, right associativity).

(** [size_t] is 64 bits wide on the platforms CUDA supports. *)
Definition PTRDIFF_MAX : Z := 2 ^ 63 - 1.
Definition to_size_t (z : Z) : Z := z mod 2 ^ 64.
Definition size_t_mul (a b : Z) : Z := to_size_t (a * b).

(** An element type: [sizeof(T)] and the value a value-initialized [T]
    holds.  A copy moves object representations unchanged, so a type can be
    represented by its bit patterns. *)
Class ElemType (T : Type) := {
  sizeof : Z;
  value_init : T;
  sizeof_pos : 0 < sizeof
}.

(** 32-bit floats by their IEEE-754 bit patterns; value-initialization
    gives +0.0, all bits clear. *)
#[global] Instance float32 : ElemType Z :=
  {| sizeof := 4; value_init := 0; sizeof_pos := eq_refl |}.

Section Runtime.

Context {T : Type} `{ET : ElemType T}.

(** Modelled from the spec: the runtime's state is not under src/.  Work
    pending on a stream is a copy enqueued by [cudaMemcpyAsync] or work
    launched earlier by other code.  Device addresses count elements of
    [T], as arithmetic on a [T*] does; host pointers name host
    allocations. *)
Inductive op :=
| op_memcpy_d2h (dst : nat) (src : Z) (count : Z)
    (* copy [count] bytes from device [src] to the start of host [dst] *)
| op_store (addr : Z) (v : T)
    (* a device-side write by work launched earlier *)
| op_fault.
    (* work launched earlier that fails when it runs *)

Record runtime := Runtime {
  dev : gmap Z T;                 (* accelerator memory *)
  host : gmap nat (list T);       (* host allocations *)
  host_avail : N;                 (* bytes of host memory still free *)
  streams : gmap nat (list op);   (* pending work per stream, oldest first *)
  sticky : cudaError_t            (* the unrecoverable error of the context,
                                     [cudaSuccess] if none *)
}.

(** The [n] cells from [src] on, if all of them are allocated. *)
Fixpoint read_cells (d : gmap Z T) (src : Z) (n : nat) : option (list T) :=
  match n with
  | O => Some []
  | S k =>
      v ← d !! src;
      vs ← read_cells d (src + 1) k;
      Some (v :: vs)
  end.

(** [count] bytes are [count / sizeof(T)] elements; every call in this
    header passes a whole number of elements. *)
Definition elems_of_bytes (count : Z) : nat := Z.to_nat (count / sizeof).

(** Modelled from the spec: what pending work does when it runs is decided
    by the CUDA runtime, which is not under src/.  A copy reads the device
    range and overwrites the start of the host allocation; a store writes
    one allocated cell; either fails on memory that is not allocated. *)
Definition exec_op (o : op) (d : gmap Z T) (h : gmap nat (list T))
  : cudaError_t + (gmap Z T * gmap nat (list T)) :=
  match o with
  | op_memcpy_d2h dst src count =>
      let n := elems_of_bytes count in
      match read_cells d src n, h !! dst with
      | Some vs, Some buf =>
          if decide (n ≤ length buf)%nat
          then inr (d, <[dst := vs ++ drop n buf]> h)
          else inl cudaErrorIllegalAddress
      | _, _ => inl cudaErrorIllegalAddress
      end
  | op_store addr v =>
      match d !! addr with
      | Some _ => inr (<[addr := v]> d, h)
      | None => inl cudaErrorIllegalAddress
      end
  | op_fault => inl cudaErrorLaunchFailure
  end.

(** Modelled from the spec: operations of one stream run in issue order.
    The first failure stops the run; the memory is then as the operations
    before it left it. *)
Fixpoint run_ops (q : list op) (d : gmap Z T) (h : gmap nat (list T))
  : cudaError_t * gmap Z T * gmap nat (list T) :=
  match q with
  | [] => (cudaSuccess, d, h)
  | o :: q' =>
      match exec_op o d h with
      | inl e => (e, d, h)
      | inr (d', h') => run_ops q' d' h'
      end
  end.

(** Modelled from the spec: [cudaMemcpyAsync(dst, src, count, kind, stream)]
    belongs to the CUDA runtime, which is not under src/.  It reports the
    context's error if it has one, rejects an unknown stream, accepts a
    transfer of zero bytes without touching anything, rejects a range that
    is not allocated, and otherwise appends the copy to the stream's queue
    without running it. *)
Definition cudaMemcpyAsync (dst : nat) (src : Z) (count : Z)
    (kind : cudaMemcpyKind) (stream : nat) : M runtime cudaError_t :=
  λ rt,
    if decide (sticky rt = cudaSuccess) then
      match streams rt !! stream with
      | None => (Normal cudaErrorInvalidResourceHandle, rt)
      | Some q =>
          if decide (count = 0) then (Normal cudaSuccess, rt)
          else
            let n := elems_of_bytes count in
            match read_cells (dev rt) src n, host rt !! dst with
            | Some _, Some buf =>
                if decide (n ≤ length buf)%nat then
                  (Normal cudaSuccess,
                   {| dev := dev rt; host := host rt;
                      host_avail := host_avail rt;
                      streams :=
                        <[stream := q ++ [op_memcpy_d2h dst src count]]>
                          (streams rt);
                      sticky := sticky rt |})
                else (Normal cudaErrorInvalidValue, rt)
            | _, _ => (Normal cudaErrorInvalidValue, rt)
            end
      end
    else (Normal (sticky rt), rt).

(** Modelled from the spec: [cudaStreamSynchronize(stream)] belongs to the
    CUDA runtime, which is not under src/.  It waits until the stream is
    idle: all pending work of the stream runs; work behind a failure is
    abandoned and the failure becomes the context's error, which the call
    returns. *)
Definition cudaStreamSynchronize (stream : nat) : M runtime cudaError_t :=
  λ rt,
    if decide (sticky rt = cudaSuccess) then
      match streams rt !! stream with
      | None => (Normal cudaErrorInvalidResourceHandle, rt)
      | Some q =>
          let '(e, d, h) := run_ops q (dev rt) (host rt) in
          (Normal e,
           {| dev := d; host := h; host_avail := host_avail rt;
              streams := <[stream := []]> (streams rt);
              sticky := e |})
      end
    else (Normal (sticky rt), rt).

(** Modelled from the spec: [CUDA_CHECK_THROW(x)] is defined in
    [<tiny-cuda-nn/common.h>], which is not under src/.  It evaluates [x]
    and throws unless the result is [cudaSuccess]. *)
Definition CUDA_CHECK_THROW (x : M runtime cudaError_t)
  : M runtime unit :=
  let! result := x in
  if decide (result = cudaSuccess) then ret tt
  else throw (cuda_runtime_error result).

(** Modelled from the spec: [std::vector<T> v(n)] belongs to the C++
    standard library.  It throws when [n] exceeds [max_size()] or the host
    memory does not suffice, and otherwise holds [n] value-initialized
    elements in a fresh host allocation.  The result is the vector's
    [data()]. *)
Definition max_size : Z := PTRDIFF_MAX / sizeof.

Definition vector_ctor (n : Z) : M runtime nat :=
  λ rt,
    if decide (max_size < n) then (Throw std_length_error, rt)
    else if decide (Z.of_N (host_avail rt) < n * sizeof)
    then (Throw std_bad_alloc, rt)
    else
      let p := fresh (dom (host rt)) in
      (Normal p,
       {| dev := dev rt;
          host := <[p := replicate (Z.to_nat n) value_init]> (host rt);
          host_avail := host_avail rt - Z.to_N (n * sizeof);
          streams := streams rt;
          sticky := sticky rt |}).

(** ** Macro arguments

    A macro argument is a piece of text, pasted wherever the parameter
    occurs and evaluated at each occurrence.  [data_size] occurs twice,
    once on its own and once in front of [* sizeof(data_type)], without
    parentheses around it, so how the second occurrence is read depends on
    the operators the argument is written with.  An argument is taken as a
    sum of products of primaries.  A primary is any operand that binds at
    least as tightly as [*] (a literal, a variable, a call, a parenthesised
    expression); it is a computation, since evaluating it may read or
    change the state.  Operands are evaluated left to right and taken at
    their mathematical value; the conversion to [size_t] happens where the
    value reaches a [size_t] parameter. *)
Definition primary : Type := M runtime Z.

Inductive mult_expr :=
| m_primary (p : primary)                    (* p *)
| m_mul (m : mult_expr) (p : primary).       (* m * p *)

Inductive add_expr :=
| a_mult (m : mult_expr)                     (* m *)
| a_add (a : add_expr) (m : mult_expr)       (* a + m *)
| a_sub (a : add_expr) (m : mult_expr).      (* a - m *)

Fixpoint eval_mult (m : mult_expr) : M runtime Z :=
  match m with
  | m_primary p => p
  | m_mul m' p =>
      let! x := eval_mult m' in
      let! y := p in
      ret (x * y)
  end.

Fixpoint eval_add (e : add_expr) : M runtime Z :=
  match e with
  | a_mult m => eval_mult m
  | a_add a m =>
      let! x := eval_add a in
      let! y := eval_mult m in
      ret (x + y)
  | a_sub a m =>
      let! x := eval_add a in
      let! y := eval_mult m in
      ret (x - y)
  end.

(** The text [e * p] as the compiler reads it: [*] binds tighter than [+]
    and [-], so the factor joins the last product of [e] only. *)
Definition times (e : add_expr) (p : primary) : add_expr :=
  match e with
  | a_mult m => a_mult (m_mul m p)
  | a_add a m => a_add a (m_mul m p)
  | a_sub a m => a_sub a (m_mul m p)
  end.

(** An argument that is a value: a literal, a variable or a parenthesised
    expression without side effects. *)
Definition plain (n : Z) : add_expr := a_mult (m_primary (ret n)).

(** ** The macro
<<
  #define CHECK_DATA(varname, data_type, data_ptr, data_size, stream) \
    std::vector<data_type> varname(data_size); \
    CUDA_CHECK_THROW(cudaMemcpyAsync(varname.data(), data_ptr, \
      data_size * sizeof(data_type), cudaMemcpyDeviceToHost, stream)); \
    cudaStreamSynchronize(stream);
>>
    [data_type] is the section's [T].  The macro leaves [varname] declared
    in the enclosing scope, so the embedding yields it.

    The first two statements: the vector, then the checked enqueue.  The
    arguments of [cudaMemcpyAsync] are evaluated left to right. *)
Definition CHECK_DATA_enqueue_text (data_ptr : M runtime Z)
    (data_size : add_expr) (stream : M runtime nat) : M runtime nat :=
  let! n := eval_add data_size in
  let! varname := vector_ctor (to_size_t n) in
  CUDA_CHECK_THROW
    (let! src := data_ptr in
     let! count := eval_add (times data_size (ret sizeof)) in
     let! s := stream in
     cudaMemcpyAsync varname src (to_size_t count)
       cudaMemcpyDeviceToHost s) ;;;
  ret varname.

(** The whole macro, on the argument texts.  [stream] is evaluated a second
    time for the synchronize, whose value is discarded, as in the source. *)
Definition CHECK_DATA_text (data_ptr : M runtime Z) (data_size : add_expr)
    (stream : M runtime nat) : M runtime nat :=
  let! varname := CHECK_DATA_enqueue_text data_ptr data_size stream in
  let! s := stream in
  let! _ := cudaStreamSynchronize s in
  ret varname.

(** The macro applied to arguments that are values.  What is proved of
    [CHECK_DATA] holds for such arguments and says nothing of an argument
    written with an operator; for those see [CHECK_DATA_text]. *)
Definition CHECK_DATA (data_ptr : Z) (data_size : Z) (stream : nat)
  : M runtime nat :=
  CHECK_DATA_text (ret data_ptr) (plain data_size) (ret stream).

(** The elements of a vector, read by the code that follows the macro. *)
Definition vector_elems (rt : runtime) (v : nat) : list T :=
  default [] (host rt !! v).

(** The specification's [snapshot(T, B, N, S)], whose arguments are
    values: expand the macro and read the vector it declared. *)
Definition snapshot (data_ptr : Z) (data_size : Z) (stream : nat)
  : M runtime (list T) :=
  let! varname := CHECK_DATA data_ptr data_size stream in
  λ rt, (Normal (vector_elems rt varname), rt).

(** The first testable property of the specification, as it is worded:
    the call returns [N] elements, the [i]-th being what [B[i]] held when
    the call was made. *)
Definition spec_snapshot_at_call_time (rt : runtime) (B N : Z) (S : nat)
  : Prop :=
  ∃ vs rt',
    snapshot B N S rt = (Normal vs, rt') ∧
    Z.of_nat (length vs) = N ∧
    ∀ i : nat, (i < length vs)%nat → vs !! i = dev rt !! (B + Z.of_nat i).

End Runtime.

Arguments op : clear implicits.
Arguments runtime T : clear implicits.
Arguments primary T : clear implicits.
Arguments mult_expr T : clear implicits.
Arguments add_expr T : clear implicits.

(** ** Sample runtimes

    A device buffer of four floats [1.0, 2.0, 3.0, 4.0] at device address
    100 and one stream, handle 7. *)
Definition f1_0 : Z := 1065353216.   (* 0x3F800000 *)
Definition f2_0 : Z := 1073741824.   (* 0x40000000 *)
Definition f3_0 : Z := 1077936128.   (* 0x40400000 *)
Definition f4_0 : Z := 1082130432.   (* 0x40800000 *)

Definition sample_dev : gmap Z Z :=
  <[100 := f1_0]> (<[101 := f2_0]> (<[102 := f3_0]> (<[103 := f4_0]> ∅))).

Definition sample_rt (pending : list (op Z)) : runtime Z :=
  {| dev := sample_dev; host := ∅; host_avail := 4096;
     streams := <[7%nat := pending]> ∅; sticky := cudaSuccess |}.

(** The stream is idle. *)
Definition rt_idle : runtime Z := sample_rt [].

(** A kernel launched earlier on the stream has yet to overwrite the first
    element with 2.0. *)
Definition rt_pending_store : runtime Z := sample_rt [op_store 100 f2_0].

(** Work launched earlier on the stream is going to fail. *)
Definition rt_pending_fault : runtime Z := sample_rt [op_fault].

(** A second stream, handle 9, with a store of its own pending; stream 7 is
    idle. *)
Definition rt_two_streams : runtime Z :=
  {| dev := sample_dev; host := ∅; host_avail := 4096;
     streams := <[7%nat := []]> (<[9%nat := [op_store 103 f1_0]]> ∅);
     sticky := cudaSuccess |}.

End Snapshot.

(* ===================================================================== *)
(** * Part II.  Properties of the accessor generators                     *)
(* ===================================================================== *)

Module AccessorFacts.
Import Accessor.

Section Lookup.

Context {value : Type}.
Implicit Types (body : list (member value)) (m : member value).
Implicit Types (o : gmap string value) (ps : list (property value)).

(** In a well-formed class a symbol resolves to the one member that
    declares it. *)
Lemma find_member_unique body m :
  wf_class body → m ∈ body → find_member body (symbol m.2) = Some m.
Proof.
  unfold wf_class, symbols, find_member.
  induction body as [|a body IH]; intros Hwf Hin.
  - by apply elem_of_nil in Hin.
  - rewrite fmap_cons in Hwf. apply NoDup_cons in Hwf as [Hfresh Hnd].
    simpl. case_bool_decide as Heq.
    + apply elem_of_cons in Hin as [->|Hin]; [done|].
      exfalso. apply Hfresh. rewrite Heq.
      by apply (list_elem_of_fmap_2 (λ m, symbol m.2)).
    + apply elem_of_cons in Hin as [->|Hin]; [done|]. by apply IH.
Qed.





(** What a call of the generated accessors does, once the symbol is
    resolved. *)
Lemma call_getter body t n o :
  wf_class body → (public, getter t n) ∈ body →
  call body ("get_" +:+ n) [] o = v ← o !! n; Some (Some v, o).
Proof.
  intros Hwf Hin. unfold call.
  assert (find_member body ("get_" +:+ n) = Some (public, getter t n))
    as -> by exact (find_member_unique body (public, getter t n) Hwf Hin).
  done.
Qed.

Lemma call_setter body t n v o :
  wf_class body → (public, setter t n) ∈ body →
  call body ("set_" +:+ n) [v] o = Some (None, assign_from_parameter n v o).
Proof.
  intros Hwf Hin. unfold call.
  assert (find_member body ("set_" +:+ n) = Some (public, setter t n))
    as -> by exact (find_member_unique body (public, setter t n) Hwf Hin).
  done.
Qed.


Lemma assign_from_parameter_stores n (v : value) o :
  n ≠ "value" → assign_from_parameter n v o = <[n := v]> o.
Proof. intros Hn. unfold assign_from_parameter. by rewrite decide_False. Qed.

Lemma assign_from_parameter_value (v : value) o :
  assign_from_parameter "value" v o = o.
Proof. done. Qed.


Lemma readwrite_members body t n (d : value) :
  READWRITE_PROPERTY t n d ⊆ body →
  (private, field t n d) ∈ body ∧ (public, getter t n) ∈ body ∧
  (public, setter t n) ∈ body.
Proof.
  intros Hsub. unfold READWRITE_PROPERTY in Hsub.
  repeat split; apply Hsub; set_solver.
Qed.

(** ** Classes made of macro expansions only *)

Lemma elem_of_class_body ps m :
  m ∈ class_body ps ↔ ∃ p, p ∈ ps ∧ m ∈ expand p.
Proof.
  unfold class_body. induction ps as [|q ps IH]; simpl.
  - split; [by intros ?%elem_of_nil|]. by intros (p & ?%elem_of_nil & _).
  - rewrite elem_of_app, IH. split.
    + intros [Hm|(p & Hp & Hm)]; [exists q|exists p];
        (split; [|done]); [by left|by right].
    + intros (p & [->|Hp]%elem_of_cons & Hm); [by left|right; eauto].
Qed.

Lemma expand_field (p : property value) :
  (private, field (p_type p) (p_name p) (p_default p)) ∈ expand p.
Proof. unfold expand. destruct (p_kind p); set_solver. Qed.

Lemma expand_getter (p : property value) :
  (public, getter (p_type p) (p_name p)) ∈ expand p.
Proof. unfold expand. destruct (p_kind p); set_solver. Qed.



End Lookup.

Section Properties.

Context {value : Type}.
Implicit Types (body : list (member value)) (o : gmap string value).




(** X16: the setter of a read-write field not called [value]
    overwrites.  After [set_name(v1)] and [set_name(v2)] the object is the
    one that [set_name(v2)] alone produces and [get_name()] returns [v2];
    storing back the value that [get_name()] returned leaves the object as
    it was. *)
Theorem readwrite_set_overwrites body t n (d : value) :
  wf_class body →
  READWRITE_PROPERTY t n d ⊆ body →
  n ≠ "value" →
  (∀ o v1 v2, ∃ o1 o2,
     call body ("set_" +:+ n) [v1] o = Some (None, o1) ∧
     call body ("set_" +:+ n) [v2] o1 = Some (None, o2) ∧
     call body ("set_" +:+ n) [v2] o = Some (None, o2) ∧
     call body ("get_" +:+ n) [] o2 = Some (Some v2, o2)) ∧
  (∀ o v o', call body ("get_" +:+ n) [] o = Some (Some v, o') →
             call body ("set_" +:+ n) [v] o' = Some (None, o)).
Proof.
  intros Hwf (Hfield & Hget & Hset)%readwrite_members Hn. split.
  - intros o v1 v2. exists (<[n := v1]> o), (<[n := v2]> o).
    rewrite (call_setter body t n v1 o), (call_setter body t n v2 o),
      (call_setter body t n v2 (<[n := v1]> o)) by done.
    rewrite !assign_from_parameter_stores by done.
    rewrite insert_insert_eq. repeat split.
    rewrite (call_getter body t) by done. by rewrite lookup_insert_eq.
  - intros o v o'. rewrite (call_getter body t) by done.
    destruct (o !! n) as [w|] eqn:Hw; simpl; [|done].
    intros [= -> <-]. rewrite (call_setter body t) by done.
    rewrite assign_from_parameter_stores by done. by rewrite insert_id.
Qed.

End Properties.

(** ** The sample class *)

Lemma camera_wf : wf_class camera.
Proof.
  unfold wf_class. apply (bool_decide_unpack _). vm_compute. exact I.
Defined.

Lemma camera_width_declared :
  READWRITE_PROPERTY "int" "width" 640 ⊆ camera.
Proof.
  intros m Hm.
  change camera
    with (READWRITE_PROPERTY "int" "width" 640 ++ class_body (tail camera_props)).
  apply elem_of_app. by left.
Defined.





Lemma readwrite_set_overwrites_witness :
  (∀ o v1 v2, ∃ o1 o2,
     call camera "set_width" [v1] o = Some (None, o1) ∧
     call camera "set_width" [v2] o1 = Some (None, o2) ∧
     call camera "set_width" [v2] o = Some (None, o2) ∧
     call camera "get_width" [] o2 = Some (Some v2, o2)) ∧
  (∀ o v o', call camera "get_width" [] o = Some (Some v, o') →
             call camera "set_width" [v] o' = Some (None, o)).
Proof.
  apply (readwrite_set_overwrites camera "int" "width" 640
           camera_wf camera_width_declared).
  discriminate.
Defined.

(** ** A property called [value] *)

(** C6, on the class [Gauge]: [set_value(5)] is accepted and leaves the
    object as constructed, so the [get_value()] that follows returns the
    default 0, not 5. *)
Theorem setter_of_value_stores_nothing :
  call gauge "set_value" [5] (construct gauge)
    = Some (None, construct gauge) ∧
  call gauge "get_value" [] (construct gauge)
    = Some (Some 0, construct gauge).
Proof. split; vm_compute; reflexivity. Qed.

(** C10, on the class [Gauge]: after [set_value(1)] and [set_value(2)]
    the last write has not won: [get_value()] returns the default 0, while
    the same calls on the property [scale] leave 2 in it. *)
Theorem setter_of_value_loses_last_write :
  (∃ o,
     run_calls gauge [("set_value", [1]); ("set_value", [2])]
       (construct gauge) = Some o ∧
     call gauge "get_value" [] o = Some (Some 0, o)) ∧
  (∃ o,
     run_calls gauge [("set_scale", [1]); ("set_scale", [2])]
       (construct gauge) = Some o ∧
     call gauge "get_scale" [] o = Some (Some 2, o)).
Proof.
  split.
  - exists (construct gauge). split; vm_compute; reflexivity.
  - eexists. split; [vm_compute; reflexivity|]. vm_compute. reflexivity.
Qed.

(** ** A read-only property next to a hand-written member *)


End AccessorFacts.

(* ===================================================================== *)
(** * Part III.  Properties of the snapshot macro                         *)
(* ===================================================================== *)

Module SnapshotFacts.
Import Snapshot.

Section Sizes.

Context {T : Type} `{ET : ElemType T}.

Lemma max_size_nonneg : 0 ≤ max_size.
Proof.
  unfold max_size, PTRDIFF_MAX. pose proof sizeof_pos.
  apply Z.div_pos; lia.
Qed.

Lemma max_size_bytes n : 0 ≤ n ≤ max_size → 0 ≤ n * sizeof ≤ PTRDIFF_MAX.
Proof.
  unfold max_size. pose proof sizeof_pos as Hs. intros [H0 Hn]. split; [nia|].
  pose proof (Z.mul_div_le PTRDIFF_MAX sizeof Hs). nia.
Qed.

Lemma to_size_t_range z : 0 ≤ to_size_t z < 2 ^ 64.
Proof. unfold to_size_t. apply Z.mod_pos_bound. lia. Qed.

Lemma to_size_t_small z : 0 ≤ z < 2 ^ 64 → to_size_t z = z.
Proof. unfold to_size_t. intros. by apply Z.mod_small. Qed.

(** The byte count of the macro does not wrap once the vector could be
    built, and it stands for exactly [n] elements. *)
Lemma byte_count_exact n :
  0 ≤ n ≤ max_size → size_t_mul n sizeof = n * sizeof.
Proof.
  intros Hn. apply max_size_bytes in Hn. unfold size_t_mul.
  apply to_size_t_small. unfold PTRDIFF_MAX in Hn. lia.
Qed.

Lemma elems_of_byte_count n :
  0 ≤ n ≤ max_size → elems_of_bytes (size_t_mul n sizeof) = Z.to_nat n.
Proof.
  intros Hn. rewrite byte_count_exact by done. unfold elems_of_bytes.
  pose proof sizeof_pos. rewrite Z.div_mul by lia. done.
Qed.

Lemma byte_count_zero n :
  0 ≤ n ≤ max_size → size_t_mul n sizeof = 0 → n = 0.
Proof.
  intros Hn. rewrite byte_count_exact by done. pose proof sizeof_pos. nia.
Qed.

End Sizes.

Section Memory.

Context {T : Type} `{ET : ElemType T}.
Implicit Types (d : gmap Z T) (h : gmap nat (list T)) (q : list (op T)).

Lemma read_cells_length d src n vs :
  read_cells d src n = Some vs → length vs = n.
Proof.
  revert src vs. induction n as [|n IH]; intros src vs; simpl.
  - by intros [= <-].
  - destruct (d !! src); simpl; [|done].
    destruct (read_cells d (src + 1) n) eqn:Hr; simpl; [|done].
    intros [= <-]. simpl. f_equal. by eapply IH.
Qed.

Lemma read_cells_lookup d src n vs (i : nat) :
  read_cells d src n = Some vs → (i < n)%nat →
  vs !! i = d !! (src + Z.of_nat i).
Proof.
  revert src vs i. induction n as [|n IH]; intros src vs i; simpl; [lia|].
  destruct (d !! src) as [v|] eqn:Hv; simpl; [|done].
  destruct (read_cells d (src + 1) n) as [ws|] eqn:Hr; simpl; [|done].
  intros [= <-] Hi. destruct i as [|i]; simpl.
  - by rewrite Z.add_0_r.
  - rewrite (IH _ _ _ Hr) by lia. f_equal. lia.
Qed.

(** Whether a range can be read depends on which cells exist only. *)
Lemma read_cells_same_cells d d' src n :
  (∀ a, is_Some (d' !! a) ↔ is_Some (d !! a)) →
  is_Some (read_cells d src n) → is_Some (read_cells d' src n).
Proof.
  intros Hdom. revert src. induction n as [|n IH]; intros src; simpl; [eauto|].
  destruct (d !! src) as [v|] eqn:Hv; simpl; [|by intros [? [=]]].
  destruct (read_cells d (src + 1) n) as [ws|] eqn:Hr; simpl;
    [|by intros [? [=]]].
  intros _. destruct (proj2 (Hdom src)) as [v' ->]; [eauto|]. simpl.
  destruct (IH (src + 1)) as [ws' ->]; [by rewrite Hr|]. simpl. eauto.
Qed.

Lemma exec_op_error o d h e : exec_op o d h = inl e → e ≠ cudaSuccess.
Proof.
  destruct o as [dst src count|addr v|]; simpl.
  - destruct (read_cells _ _ _), (h !! dst); try case_decide; by intros [= <-].
  - destruct (d !! addr); by intros [= <-].
  - by intros [= <-].
Qed.

(** Running an operation neither allocates nor frees device cells. *)
Lemma exec_op_cells o d h d' h' a :
  exec_op o d h = inr (d', h') → is_Some (d' !! a) ↔ is_Some (d !! a).
Proof.
  destruct o as [dst src count|addr v|]; simpl.
  - destruct (read_cells _ _ _), (h !! dst); try case_decide;
      by intros [= <- <-].
  - destruct (d !! addr) as [w|] eqn:Hw; intros [= <- <-].
    destruct (decide (addr = a)) as [->|Hne].
    + rewrite lookup_insert_eq, Hw. split; eauto.
    + by rewrite lookup_insert_ne.
  - done.
Qed.

(** A device cell changes only by a store to its address. *)
Lemma exec_op_cell_kept o d h d' h' a :
  exec_op o d h = inr (d', h') → (∀ v, o ≠ op_store a v) → d' !! a = d !! a.
Proof.
  destruct o as [dst src count|addr v|]; simpl.
  - destruct (read_cells _ _ _), (h !! dst); try case_decide;
      by intros [= <- <-].
  - destruct (d !! addr) as [w|]; intros [= <- <-] Hne.
    rewrite lookup_insert_ne; [done|]. intros ->. by apply (Hne v).
  - done.
Qed.

(** Host allocations keep their length: a copy overwrites a prefix. *)
Lemma exec_op_host_length o d h d' h' p buf :
  exec_op o d h = inr (d', h') → h !! p = Some buf →
  ∃ buf', h' !! p = Some buf' ∧ length buf' = length buf.
Proof.
  destruct o as [dst src count|addr v|]; simpl.
  - destruct (read_cells _ _ _) as [vs|] eqn:Hr; [|done].
    destruct (h !! dst) as [b|] eqn:Hb; [|done].
    case_decide as Hlen; [|done]. intros [= <- <-] Hp.
    destruct (decide (dst = p)) as [->|Hne].
    + rewrite lookup_insert_eq. eexists. split; [done|].
      rewrite length_app, length_drop, (read_cells_length _ _ _ _ Hr).
      simplify_eq. lia.
    + rewrite lookup_insert_ne by done. eauto.
  - destruct (d !! addr); intros [= <- <-]; eauto.
  - done.
Qed.

(** An operation that runs does not see host allocations made after it
    was enqueued. *)
Lemma exec_op_host_frame o d h d' h' p buf :
  exec_op o d h = inr (d', h') → h !! p = None →
  exec_op o d (<[p := buf]> h) = inr (d', <[p := buf]> h').
Proof.
  destruct o as [dst src count|addr v|]; simpl.
  - destruct (read_cells _ _ _) as [vs|] eqn:Hr; [|done].
    destruct (h !! dst) as [b|] eqn:Hb; [|done].
    case_decide as Hlen; [|done]. intros [= <- <-] Hp.
    assert (dst ≠ p) as Hne by congruence.
    rewrite lookup_insert_ne, Hb by done. rewrite decide_True by done.
    by rewrite insert_insert_ne.
  - destruct (d !! addr); by intros [= <- <-].
  - done.
Qed.

Lemma run_ops_app q1 q2 d h d1 h1 :
  run_ops q1 d h = (cudaSuccess, d1, h1) →
  run_ops (q1 ++ q2) d h = run_ops q2 d1 h1.
Proof.
  revert d h. induction q1 as [|o q1 IH]; intros d h; simpl.
  - by intros [= <- <-].
  - destruct (exec_op o d h) as [e|[d' h']] eqn:Hex.
    + intros [= -> _ _]. by apply exec_op_error in Hex.
    + apply IH.
Qed.

Lemma run_ops_cells q d h e d' h' a :
  run_ops q d h = (e, d', h') → is_Some (d' !! a) ↔ is_Some (d !! a).
Proof.
  revert d h. induction q as [|o q IH]; intros d h; simpl.
  - by intros [= _ <- _].
  - destruct (exec_op o d h) as [e0|[d0 h0]] eqn:Hex.
    + by intros [= _ <- _].
    + intros Hrun. rewrite (IH _ _ Hrun). by eapply exec_op_cells.
Qed.

Lemma run_ops_cell_kept q d h e d' h' a :
  run_ops q d h = (e, d', h') → (∀ v, op_store a v ∉ q) → d' !! a = d !! a.
Proof.
  revert d h. induction q as [|o q IH]; intros d h; simpl.
  - by intros [= _ <- _].
  - destruct (exec_op o d h) as [e0|[d0 h0]] eqn:Hex.
    + by intros [= _ <- _].
    + intros Hrun Hq. rewrite (IH _ _ Hrun).
      * eapply exec_op_cell_kept; [done|]. intros v ->.
        apply (Hq v). by left.
      * intros v Hv. apply (Hq v). by right.
Qed.

Lemma run_ops_host_length q d h e d' h' p buf :
  run_ops q d h = (e, d', h') → h !! p = Some buf →
  ∃ buf', h' !! p = Some buf' ∧ length buf' = length buf.
Proof.
  revert d h buf. induction q as [|o q IH]; intros d h buf; simpl.
  - intros [= _ _ <-]. eauto.
  - destruct (exec_op o d h) as [e0|[d0 h0]] eqn:Hex.
    + intros [= _ _ <-]. eauto.
    + intros Hrun Hp.
      destruct (exec_op_host_length _ _ _ _ _ _ _ Hex Hp) as (b0 & Hb0 & Hl0).
      destruct (IH _ _ _ Hrun Hb0) as (b1 & Hb1 & Hl1).
      exists b1. split; [done|congruence].
Qed.

Lemma run_ops_host_frame q d h d' h' p buf :
  run_ops q d h = (cudaSuccess, d', h') → h !! p = None →
  run_ops q d (<[p := buf]> h) = (cudaSuccess, d', <[p := buf]> h')
  ∧ h' !! p = None.
Proof.
  revert d h. induction q as [|o q IH]; intros d h; simpl.
  - by intros [= <- <-].
  - destruct (exec_op o d h) as [e0|[d0 h0]] eqn:Hex.
    + intros [= -> _ _]. by apply exec_op_error in Hex.
    + intros Hrun Hp.
      rewrite (exec_op_host_frame _ _ _ _ _ _ buf Hex Hp).
      apply IH; [done|].
      destruct (h0 !! p) as [b|] eqn:Hb; [|done]. exfalso.
      clear IH Hrun. destruct o as [dst src count|addr v|]; simpl in Hex.
      * destruct (read_cells _ _ _), (h !! dst) eqn:Hd;
          try case_decide; simplify_eq.
        destruct (decide (dst = p)) as [->|Hne]; [congruence|].
        rewrite lookup_insert_ne in Hb by done. congruence.
      * destruct (d !! addr); simplify_eq.
      * done.
Qed.

End Memory.

Section Statements.

Context {T : Type} `{ET : ElemType T}.
Implicit Types (rt : runtime T) (q : list (op T)).

(** *** The vector constructor *)

Lemma vector_ctor_ok n rt :
  n ≤ max_size → n * sizeof ≤ Z.of_N (host_avail rt) →
  vector_ctor n rt =
    (Normal (fresh (dom (host rt))),
     {| dev := dev rt;
        host := <[fresh (dom (host rt)) := replicate (Z.to_nat n) value_init]>
                  (host rt);
        host_avail := host_avail rt - Z.to_N (n * sizeof);
        streams := streams rt;
        sticky := sticky rt |}).
Proof.
  intros Hn Hm. unfold vector_ctor.
  rewrite decide_False by lia. by rewrite decide_False by lia.
Qed.

Lemma vector_ctor_Normal n rt p rt1 :
  vector_ctor n rt = (Normal p, rt1) →
  n ≤ max_size ∧ host rt !! p = None ∧
  host rt1 = <[p := replicate (Z.to_nat n) value_init]> (host rt) ∧
  dev rt1 = dev rt ∧ streams rt1 = streams rt ∧ sticky rt1 = sticky rt.
Proof.
  unfold vector_ctor. repeat case_decide; intros [= <- <-]; simpl.
  split; [lia|]. split; [|done].
  apply not_elem_of_dom, is_fresh.
Qed.

Lemma vector_ctor_Throw n rt e rt1 :
  vector_ctor n rt = (Throw e, rt1) →
  rt1 = rt ∧ (e = std_length_error ∨ e = std_bad_alloc).
Proof. unfold vector_ctor. repeat case_decide; intros [= <- <-]; eauto. Qed.

(** *** The enqueue *)

Lemma cudaMemcpyAsync_returns dst src count kind S rt :
  ∃ e rt', cudaMemcpyAsync dst src count kind S rt = (Normal e, rt').
Proof.
  unfold cudaMemcpyAsync.
  repeat (case_decide || case_match); eauto.
Qed.

(** A rejected copy leaves the runtime as it was. *)
Lemma cudaMemcpyAsync_rejected dst src count kind S rt e rt' :
  cudaMemcpyAsync dst src count kind S rt = (Normal e, rt') →
  e ≠ cudaSuccess → rt' = rt.
Proof.
  unfold cudaMemcpyAsync.
  repeat (case_decide || case_match); intros [= <- <-]; done.
Qed.

(** An accepted copy found a usable context and a known stream, and either
    had nothing to transfer or was appended to the stream's queue. *)
Lemma cudaMemcpyAsync_accepted dst src count kind S rt rt' :
  cudaMemcpyAsync dst src count kind S rt = (Normal cudaSuccess, rt') →
  sticky rt = cudaSuccess ∧ sticky rt' = cudaSuccess ∧
  dev rt' = dev rt ∧ host rt' = host rt ∧
  ∃ q, streams rt !! S = Some q ∧
       (count = 0 ∧ rt' = rt ∨
        count ≠ 0 ∧
        streams rt' = <[S := q ++ [op_memcpy_d2h dst src count]]> (streams rt)).
Proof.
  unfold cudaMemcpyAsync.
  repeat (case_decide || case_match); intros ?; simplify_eq/=;
    try congruence; repeat split; try done; eauto.
Qed.

Lemma cudaMemcpyAsync_zero dst src kind S rt q :
  sticky rt = cudaSuccess → streams rt !! S = Some q →
  cudaMemcpyAsync dst src 0 kind S rt = (Normal cudaSuccess, rt).
Proof.
  intros Hs Hq. unfold cudaMemcpyAsync.
  rewrite decide_True, Hq by done. by rewrite decide_True.
Qed.

Lemma cudaMemcpyAsync_enqueue dst src count kind S rt q vs buf :
  sticky rt = cudaSuccess → streams rt !! S = Some q → count ≠ 0 →
  read_cells (dev rt) src (elems_of_bytes count) = Some vs →
  host rt !! dst = Some buf →
  (elems_of_bytes count ≤ length buf)%nat →
  cudaMemcpyAsync dst src count kind S rt =
    (Normal cudaSuccess,
     {| dev := dev rt; host := host rt; host_avail := host_avail rt;
        streams := <[S := q ++ [op_memcpy_d2h dst src count]]> (streams rt);
        sticky := sticky rt |}).
Proof.
  intros Hs Hq Hc Hr Hb Hl. unfold cudaMemcpyAsync.
  rewrite decide_True, Hq by done. rewrite decide_False by done.
  rewrite Hr, Hb. by rewrite decide_True.
Qed.

(** *** The synchronize *)

Lemma cudaStreamSynchronize_returns S rt :
  ∃ e rt', cudaStreamSynchronize S rt = (Normal e, rt').
Proof.
  unfold cudaStreamSynchronize.
  repeat (case_decide || case_match); eauto.
Qed.

Lemma cudaStreamSynchronize_runs S rt q :
  sticky rt = cudaSuccess → streams rt !! S = Some q →
  cudaStreamSynchronize S rt =
    (Normal (run_ops q (dev rt) (host rt)).1.1,
     {| dev := (run_ops q (dev rt) (host rt)).1.2;
        host := (run_ops q (dev rt) (host rt)).2;
        host_avail := host_avail rt;
        streams := <[S := []]> (streams rt);
        sticky := (run_ops q (dev rt) (host rt)).1.1 |}).
Proof.
  intros Hs Hq. unfold cudaStreamSynchronize.
  rewrite decide_True, Hq by done.
  by destruct (run_ops q (dev rt) (host rt)) as [[e d] h].
Qed.

(** Nothing is pending on an idle stream: a synchronize returns at once
    and changes nothing. *)
Lemma cudaStreamSynchronize_idle S rt :
  streams rt !! S = Some [] →
  cudaStreamSynchronize S rt = (Normal (sticky rt), rt).
Proof.
  intros Hq. unfold cudaStreamSynchronize. case_decide as Hs; [|done].
  rewrite Hq. destruct rt; simpl in *. subst. by rewrite insert_id.
Qed.

(** *** The macro, statement by statement *)

Lemma CHECK_DATA_steps data_ptr data_size S rt :
  CHECK_DATA data_ptr data_size S rt =
    match vector_ctor (to_size_t data_size) rt with
    | (Normal varname, rt1) =>
        match cudaMemcpyAsync varname data_ptr
                (size_t_mul (to_size_t data_size) sizeof)
                cudaMemcpyDeviceToHost S rt1 with
        | (Normal e, rt2) =>
            if decide (e = cudaSuccess)
            then (Normal varname, (cudaStreamSynchronize S rt2).2)
            else (Throw (cuda_runtime_error e), rt2)
        | (Throw x, rt2) => (Throw x, rt2)
        end
    | (Throw x, rt1) => (Throw x, rt1)
    end.
Proof.
  assert (to_size_t (data_size * sizeof)
          = size_t_mul (to_size_t data_size) sizeof) as Hcount.
  { unfold size_t_mul, to_size_t. by rewrite Z.mul_mod_idemp_l. }
  unfold CHECK_DATA, CHECK_DATA_text, CHECK_DATA_enqueue_text, plain, times.
  unfold CUDA_CHECK_THROW, eval_add, eval_mult, bind, ret, throw.
  rewrite Hcount.
  destruct (vector_ctor _ rt) as [[p|x] rt1]; [|done].
  destruct (cudaMemcpyAsync _ _ _ _ _ rt1) as [[e|x] rt2]; [|done].
  case_decide; [|done].
  by destruct (cudaStreamSynchronize_returns S rt2) as (e' & rt3 & ->).
Qed.

(** The macro completes exactly when the vector could be built and the
    copy was accepted; what the synchronize reports plays no part. *)
Lemma CHECK_DATA_Normal data_ptr data_size S rt v rt' :
  CHECK_DATA data_ptr data_size S rt = (Normal v, rt') ↔
  ∃ rt1 rt2,
    vector_ctor (to_size_t data_size) rt = (Normal v, rt1) ∧
    cudaMemcpyAsync v data_ptr (size_t_mul (to_size_t data_size) sizeof)
      cudaMemcpyDeviceToHost S rt1 = (Normal cudaSuccess, rt2) ∧
    rt' = (cudaStreamSynchronize S rt2).2.
Proof.
  rewrite CHECK_DATA_steps. split.
  - destruct (vector_ctor _ rt) as [[p|x] rt1]; [|done].
    destruct (cudaMemcpyAsync _ _ _ _ _ rt1) as [[e|x] rt2] eqn:Hc; [|done].
    case_decide as He; [|done]. intros [= <- <-]. subst e. eauto.
  - intros (rt1 & rt2 & -> & -> & ->). by rewrite decide_True.
Qed.

Lemma CHECK_DATA_Throw_cuda data_ptr data_size S rt e rt' :
  CHECK_DATA data_ptr data_size S rt = (Throw (cuda_runtime_error e), rt') →
  e ≠ cudaSuccess ∧
  ∃ v, vector_ctor (to_size_t data_size) rt = (Normal v, rt') ∧
       cudaMemcpyAsync v data_ptr (size_t_mul (to_size_t data_size) sizeof)
         cudaMemcpyDeviceToHost S rt' = (Normal e, rt').
Proof.
  rewrite CHECK_DATA_steps.
  destruct (vector_ctor _ rt) as [[p|x] rt1] eqn:Hv.
  - destruct (cudaMemcpyAsync _ _ _ _ _ rt1) as [[e'|x] rt2] eqn:Hc.
    + case_decide as He; [done|]. intros [= <- <-]. split; [done|].
      pose proof (cudaMemcpyAsync_rejected _ _ _ _ _ _ _ _ Hc He) as ->.
      eauto.
    + destruct (cudaMemcpyAsync_returns p data_ptr
                  (size_t_mul (to_size_t data_size) sizeof)
                  cudaMemcpyDeviceToHost S rt1) as (e0 & r0 & He0).
      congruence.
  - intros [= -> <-]. apply vector_ctor_Throw in Hv as [_ [?|?]]; done.
Qed.

(** *** A call whose preconditions hold

    The vector can be built, the context is usable, the stream is known,
    the device range is allocated, and the work pending on the stream runs
    to completion, leaving device memory [d']. *)
Lemma CHECK_DATA_completes rt B N S q d' h' :
  0 ≤ N ≤ max_size →
  N * sizeof ≤ Z.of_N (host_avail rt) →
  sticky rt = cudaSuccess →
  streams rt !! S = Some q →
  is_Some (read_cells (dev rt) B (Z.to_nat N)) →
  run_ops q (dev rt) (host rt) = (cudaSuccess, d', h') →
  ∃ v rt' vs,
    CHECK_DATA B N S rt = (Normal v, rt') ∧
    host rt' !! v = Some vs ∧
    read_cells d' B (Z.to_nat N) = Some vs ∧
    dev rt' = d' ∧ sticky rt' = cudaSuccess.
Proof.
  intros HN Hav Hst Hq Hbuf Hrun.
  assert (to_size_t N = N) as HtN.
  { apply to_size_t_small. pose proof (max_size_bytes N HN) as Hb.
    pose proof sizeof_pos. unfold PTRDIFF_MAX in Hb. nia. }
  set (p := fresh (dom (host rt))).
  set (rep := replicate (Z.to_nat N) value_init).
  assert (host rt !! p = None) as Hp by apply not_elem_of_dom, is_fresh.
  destruct (run_ops_host_frame q _ _ _ _ p rep Hrun Hp) as [Hrun' Hp'].
  assert (is_Some (read_cells d' B (Z.to_nat N))) as [vs Hvs].
  { eapply read_cells_same_cells; [|exact Hbuf].
    intros a. by eapply run_ops_cells. }
  pose proof (vector_ctor_ok N rt (proj2 HN) Hav) as Hctor.
  fold p rep in Hctor.
  exists p. destruct (decide (N = 0)) as [->|HN0].
  - (* nothing to transfer: the stream's queue is left as it was *)
    eexists _, []. split; [|split; [|split; [|split]]].
    + apply CHECK_DATA_Normal. eexists _, _. rewrite HtN.
      split; [exact Hctor|]. split; [|reflexivity].
      unfold size_t_mul. rewrite Z.mul_0_l. change (to_size_t 0) with 0.
      by eapply cudaMemcpyAsync_zero.
    + erewrite cudaStreamSynchronize_runs by done. simpl.
      fold rep. rewrite Hrun'. simpl. by rewrite lookup_insert_eq.
    + simpl in Hvs. by simplify_eq.
    + erewrite cudaStreamSynchronize_runs by done. simpl.
      fold rep. by rewrite Hrun'.
    + erewrite cudaStreamSynchronize_runs by done. simpl.
      fold rep. by rewrite Hrun'.
  - (* the copy is appended to the queue and runs last *)
    destruct Hbuf as [vs0 Hvs0].
    pose proof (byte_count_exact N HN) as Hcount.
    pose proof (elems_of_byte_count N HN) as Helems.
    assert (size_t_mul N sizeof ≠ 0) as Hne.
    { intros H0. by apply HN0, byte_count_zero. }
    set (cp := op_memcpy_d2h p B (size_t_mul N sizeof) : op T).
    assert (run_ops (q ++ [cp]) (dev rt) (<[p := rep]> (host rt))
            = (cudaSuccess, d', <[p := vs]> h')) as Hall.
    { rewrite (run_ops_app _ _ _ _ _ _ Hrun'). simpl.
      rewrite Helems, Hvs, lookup_insert_eq.
      rewrite decide_True by (unfold rep; by rewrite length_replicate).
      rewrite insert_insert_eq. unfold rep.
      rewrite drop_replicate, Nat.sub_diag. simpl. by rewrite app_nil_r. }
    eexists _, vs. split; [|split; [|split; [|split]]].
    + apply CHECK_DATA_Normal. eexists _, _. rewrite HtN.
      split; [exact Hctor|]. split; [|reflexivity].
      eapply cudaMemcpyAsync_enqueue; simpl; try done.
      * by rewrite Helems.
      * by rewrite lookup_insert_eq.
      * rewrite Helems. unfold rep. by rewrite length_replicate.
    + erewrite cudaStreamSynchronize_runs; simpl; [|done|apply lookup_insert_eq].
      fold cp. rewrite Hall. simpl. by rewrite lookup_insert_eq.
    + done.
    + erewrite cudaStreamSynchronize_runs; simpl; [|done|apply lookup_insert_eq].
      fold cp. by rewrite Hall.
    + erewrite cudaStreamSynchronize_runs; simpl; [|done|apply lookup_insert_eq].
      fold cp. by rewrite Hall.
Qed.

Lemma snapshot_Normal B N S rt vs rt' :
  snapshot B N S rt = (Normal vs, rt') ↔
  ∃ v, CHECK_DATA B N S rt = (Normal v, rt') ∧ vs = vector_elems rt' v.
Proof.
  unfold snapshot, bind. split.
  - destruct (CHECK_DATA B N S rt) as [[v|x] rt1]; [|done].
    intros [= <- <-]. eauto.
  - by intros (v & -> & ->).
Qed.

(** After an accepted copy the stream is still known to the runtime. *)
Lemma accepted_stream_known dst src count kind S rt rt' :
  cudaMemcpyAsync dst src count kind S rt = (Normal cudaSuccess, rt') →
  ∃ q, streams rt' !! S = Some q.
Proof.
  intros (_ & _ & _ & _ & q & Hq & [[_ ->]|[_ ->]])%cudaMemcpyAsync_accepted.
  - eauto.
  - rewrite lookup_insert_eq. eauto.
Qed.

End Statements.

Section Properties.

Context {T : Type} `{ET : ElemType T}.
Implicit Types (rt : runtime T) (q : list (op T)).

(** C1, as amended: for arguments that are values, when the vector can
    be built, the copy is accepted, the work pending on the stream
    completes, and no other stream has a store into the buffer pending,
    [snapshot] returns [N] elements, the [i]-th being what [B[i]] holds at
    the copy's place in the stream's order, that is, after the work
    enqueued earlier on the stream has run ([d'] below).  That is the value
    at the time of the call for every element that no pending operation
    stores to. *)
Theorem snapshot_reads_stream_ordered_values rt B N S q d' h' :
  0 ≤ N ≤ max_size →
  N * sizeof ≤ Z.of_N (host_avail rt) →
  sticky rt = cudaSuccess →
  streams rt !! S = Some q →
  is_Some (read_cells (dev rt) B (Z.to_nat N)) →
  run_ops q (dev rt) (host rt) = (cudaSuccess, d', h') →
  (∀ S' q' (i : nat) v, S' ≠ S → streams rt !! S' = Some q' →
     (i < Z.to_nat N)%nat → op_store (B + Z.of_nat i) v ∉ q') →
  ∃ vs rt',
    snapshot B N S rt = (Normal vs, rt') ∧
    Z.of_nat (length vs) = N ∧
    (∀ i : nat, (i < length vs)%nat →
       vs !! i = d' !! (B + Z.of_nat i)) ∧
    (∀ i : nat, (i < length vs)%nat →
       (∀ v, op_store (B + Z.of_nat i) v ∉ q) →
       vs !! i = dev rt !! (B + Z.of_nat i)).
Proof.
  intros HN Hav Hst Hq Hbuf Hrun _.
  destruct (CHECK_DATA_completes rt B N S q d' h' HN Hav Hst Hq Hbuf Hrun)
    as (v & rt' & vs & Hmacro & Hv & Hvs & _ & _).
  pose proof (read_cells_length _ _ _ _ Hvs) as Hlen.
  assert (∀ i : nat, (i < length vs)%nat →
            vs !! i = d' !! (B + Z.of_nat i)) as Hread.
  { intros i Hi. eapply read_cells_lookup; [done|lia]. }
  exists vs, rt'. split; [|split; [|split]].
  - apply snapshot_Normal. exists v. split; [done|].
    unfold vector_elems. by rewrite Hv.
  - lia.
  - done.
  - intros i Hi Hstore. rewrite Hread by done.
    by eapply run_ops_cell_kept.
Qed.

(** C4: when the macro completes, nothing is pending on the stream, and a
    synchronize issued right after it returns without changing
    anything. *)
Theorem snapshot_is_full_stream_barrier rt B N S vs rt' :
  snapshot B N S rt = (Normal vs, rt') →
  streams rt' !! S = Some [] ∧
  cudaStreamSynchronize S rt' = (Normal (sticky rt'), rt').
Proof.
  intros (v & Hmacro & _)%snapshot_Normal.
  apply CHECK_DATA_Normal in Hmacro as (rt1 & rt2 & _ & Hcopy & ->).
  destruct (accepted_stream_known _ _ _ _ _ _ _ Hcopy) as [q2 Hq2].
  apply cudaMemcpyAsync_accepted in Hcopy as (_ & Hst & _).
  assert (streams (cudaStreamSynchronize S rt2).2 !! S = Some []) as Hidle.
  { erewrite cudaStreamSynchronize_runs by done. simpl.
    by rewrite lookup_insert_eq. }
  split; [done|]. by apply cudaStreamSynchronize_idle.
Qed.

(** C5: with a count of zero, on a usable context and a known stream, the
    macro returns an empty vector, behaves exactly as the construction of
    the vector followed by the synchronize (the copy neither moves an
    element nor leaves anything on the stream), and leaves the stream
    idle. *)
Theorem snapshot_of_zero_elements rt B S q :
  sticky rt = cudaSuccess →
  streams rt !! S = Some q →
  ∃ rt',
    snapshot B 0 S rt = (Normal [], rt') ∧
    CHECK_DATA B 0 S rt =
      (let! varname := vector_ctor 0 in
       let! _ := cudaStreamSynchronize S in
       ret varname) rt ∧
    streams rt' !! S = Some [].
Proof.
  intros Hst Hq.
  pose proof (vector_ctor_ok 0 rt max_size_nonneg) as Hctor.
  rewrite Z.mul_0_l in Hctor. specialize (Hctor (N2Z.is_nonneg _)).
  set (p := fresh (dom (host rt))) in *.
  set (rt1 := {| dev := dev rt; host := <[p := replicate (Z.to_nat 0) value_init]> (host rt);
                 host_avail := host_avail rt - Z.to_N 0;
                 streams := streams rt; sticky := sticky rt |}) in *.
  assert (cudaMemcpyAsync p B (size_t_mul (to_size_t 0) sizeof)
            cudaMemcpyDeviceToHost S rt1 = (Normal cudaSuccess, rt1)) as Hcopy.
  { change (size_t_mul (to_size_t 0) sizeof) with 0.
    by eapply cudaMemcpyAsync_zero. }
  assert (CHECK_DATA B 0 S rt = (Normal p, (cudaStreamSynchronize S rt1).2))
    as Hmacro.
  { apply CHECK_DATA_Normal. exists rt1, rt1. done. }
  exists (cudaStreamSynchronize S rt1).2. split; [|split].
  - apply snapshot_Normal. exists p. split; [done|].
    unfold vector_elems.
    erewrite cudaStreamSynchronize_runs by done. simpl.
    destruct (run_ops q (dev rt) (<[p := []]> (host rt)))
      as [[e d] h] eqn:Hrun. simpl.
    destruct (run_ops_host_length _ _ _ _ _ _ p [] Hrun)
      as (b & -> & Hb); [apply lookup_insert_eq|].
    simpl. by apply nil_length_inv in Hb as ->.
  - rewrite Hmacro. unfold bind, ret. rewrite Hctor.
    by destruct (cudaStreamSynchronize_returns S rt1) as (e & rt3 & ->).
  - erewrite cudaStreamSynchronize_runs by done. simpl.
    by rewrite lookup_insert_eq.
Qed.

(** C9: whenever the vector can be built, the macro builds it first: a
    fresh host allocation of [data_size] value-initialized elements, with
    the device memory, the streams and every other host allocation still as
    they were.  The enqueue is attempted from that state.  If it is
    rejected, the macro throws the CUDA error in that very state, the
    vector built and nothing enqueued; if it is accepted, the macro
    completes and the vector holds [data_size] elements, whatever the
    pending work and the copy did. *)
Theorem check_data_allocates_before_enqueue rt B N S :
  0 ≤ N ≤ max_size →
  N * sizeof ≤ Z.of_N (host_avail rt) →
  ∃ p rt1 e,
    host rt !! p = None ∧
    host rt1 !! p = Some (replicate (Z.to_nat N) value_init) ∧
    (∀ p', p' ≠ p → host rt1 !! p' = host rt !! p') ∧
    dev rt1 = dev rt ∧ streams rt1 = streams rt ∧ sticky rt1 = sticky rt ∧
    (cudaMemcpyAsync p B (N * sizeof) cudaMemcpyDeviceToHost S rt1).1
      = Normal e ∧
    (e ≠ cudaSuccess →
       CHECK_DATA B N S rt = (Throw (cuda_runtime_error e), rt1)) ∧
    (e = cudaSuccess →
       ∃ rt' vs,
         CHECK_DATA B N S rt = (Normal p, rt') ∧
         host rt' !! p = Some vs ∧
         Z.of_nat (length vs) = N).
Proof.
  intros HN Hav.
  assert (to_size_t N = N) as HtN.
  { apply to_size_t_small. pose proof (max_size_bytes N HN) as Hb.
    pose proof sizeof_pos. unfold PTRDIFF_MAX in Hb. nia. }
  pose proof (vector_ctor_ok N rt (proj2 HN) Hav) as Hctor.
  pose proof (byte_count_exact N HN) as Hcount.
  set (p := fresh (dom (host rt))) in *.
  set (rep := replicate (Z.to_nat N) value_init) in *.
  set (rt1 := {| dev := dev rt; host := <[p := rep]> (host rt);
                 host_avail := host_avail rt - Z.to_N (N * sizeof);
                 streams := streams rt; sticky := sticky rt |}) in *.
  destruct (cudaMemcpyAsync_returns p B (N * sizeof) cudaMemcpyDeviceToHost
              S rt1) as (e & rt2 & Hcopy).
  exists p, rt1, e.
  split; [apply not_elem_of_dom, is_fresh|].
  split; [apply lookup_insert_eq|].
  split; [by intros p' Hp'; apply lookup_insert_ne|].
  do 3 (split; [done|]).
  split; [by rewrite Hcopy|].
  assert (CHECK_DATA B N S rt =
          if decide (e = cudaSuccess)
          then (Normal p, (cudaStreamSynchronize S rt2).2)
          else (Throw (cuda_runtime_error e), rt2)) as Hmacro.
  { rewrite CHECK_DATA_steps, HtN, Hctor, Hcount. by rewrite Hcopy. }
  split.
  - intros He. rewrite Hmacro, decide_False by done.
    by rewrite (cudaMemcpyAsync_rejected _ _ _ _ _ _ _ _ Hcopy He).
  - intros ->. rewrite Hmacro, decide_True by done.
    destruct (accepted_stream_known _ _ _ _ _ _ _ Hcopy) as [q2 Hq2].
    apply cudaMemcpyAsync_accepted in Hcopy as (_ & Hst & _ & Hh2 & _).
    erewrite cudaStreamSynchronize_runs by done. simpl.
    destruct (run_ops q2 (dev rt2) (host rt2)) as [[e d] h] eqn:Hrun. simpl.
    destruct (run_ops_host_length _ _ _ _ _ _ p rep Hrun) as (b & Hb & Hlen).
    { rewrite Hh2. apply lookup_insert_eq. }
    eexists _, b. split; [done|]. split; [done|].
    rewrite Hlen. unfold rep. rewrite length_replicate. lia.
Qed.

End Properties.

(** ** The sample runtimes *)

(** The specification's concrete scenario: four floats, an idle stream. *)
Example snapshot_four_floats :
  (snapshot 100 4 7%nat rt_idle).1 = Normal [f1_0; f2_0; f3_0; f4_0].
Proof. vm_compute. reflexivity. Qed.

(** Each of the three exceptions can be thrown: an unknown stream, a count
    beyond [max_size()], and a vector larger than the free host memory. *)
Example snapshot_throws :
  (snapshot 100 4 8%nat rt_idle).1
    = Throw (cuda_runtime_error cudaErrorInvalidResourceHandle) ∧
  (snapshot 100 (-1) 7%nat rt_idle).1 = Throw std_length_error ∧
  (snapshot 100 2000 7%nat rt_idle).1 = Throw std_bad_alloc.
Proof. vm_compute. done. Qed.

(** C1, counterexample: the buffer holds four elements and the stream is
    known, but a store to the first element is pending on the stream; the
    snapshot returns the stored 2.0, not the 1.0 the buffer held when the
    call was made. *)
Lemma snapshot_at_call_time_counterexample :
  read_cells (dev rt_pending_store) 100 4 = Some [f1_0; f2_0; f3_0; f4_0] ∧
  is_Some (streams rt_pending_store !! 7%nat) ∧
  ¬ spec_snapshot_at_call_time rt_pending_store 100 4 7%nat.
Proof.
  split; [by vm_compute|]. split; [by vm_compute; eauto|].
  intros (vs & rt' & Hsnap & _ & Hread).
  assert ((snapshot 100 4 7%nat rt_pending_store).1
          = Normal [f2_0; f2_0; f3_0; f4_0]) as Hrun by (by vm_compute).
  rewrite Hsnap in Hrun. simpl in Hrun. injection Hrun as ->.
  specialize (Hread 0%nat ltac:(simpl; lia)). by vm_compute in Hread.
Qed.

Lemma snapshot_reads_stream_ordered_values_witness :
  ∃ vs rt',
    snapshot 100 4 7%nat rt_pending_store = (Normal vs, rt') ∧
    Z.of_nat (length vs) = 4 ∧
    (∀ i : nat, (i < length vs)%nat →
       vs !! i = (<[100 := f2_0]> sample_dev) !! (100 + Z.of_nat i)) ∧
    (∀ i : nat, (i < length vs)%nat →
       (∀ v, op_store (100 + Z.of_nat i) v ∉ [op_store 100 f2_0]) →
       vs !! i = dev rt_pending_store !! (100 + Z.of_nat i)).
Proof.
  apply (snapshot_reads_stream_ordered_values rt_pending_store 100 4 7%nat
           [op_store 100 f2_0] (<[100 := f2_0]> sample_dev) ∅).
  - by vm_compute.
  - by vm_compute.
  - reflexivity.
  - reflexivity.
  - vm_compute. eauto.
  - vm_compute. reflexivity.
  - intros S' q' i v Hne Hq'. simpl in Hq'.
    rewrite lookup_insert_ne in Hq' by done. by rewrite lookup_empty in Hq'.
Defined.

Lemma check_data_allocates_before_enqueue_witness :
  ∃ p rt1 e,
    host rt_idle !! p = None ∧
    host rt1 !! p = Some (replicate (Z.to_nat 4) value_init) ∧
    (∀ p', p' ≠ p → host rt1 !! p' = host rt_idle !! p') ∧
    dev rt1 = dev rt_idle ∧ streams rt1 = streams rt_idle ∧
    sticky rt1 = sticky rt_idle ∧
    (cudaMemcpyAsync p 100 (4 * sizeof) cudaMemcpyDeviceToHost 8%nat rt1).1
      = Normal e ∧
    (e ≠ cudaSuccess →
       CHECK_DATA 100 4 8%nat rt_idle = (Throw (cuda_runtime_error e), rt1)) ∧
    (e = cudaSuccess →
       ∃ rt' vs,
         CHECK_DATA 100 4 8%nat rt_idle = (Normal p, rt') ∧
         host rt' !! p = Some vs ∧
         Z.of_nat (length vs) = 4).
Proof.
  apply (check_data_allocates_before_enqueue rt_idle 100 4 8%nat);
    by vm_compute.
Defined.

(** C2, on a stream whose pending work fails: the vector is built and the
    copy enqueued, the synchronize then reports the failure of the pending
    work, and the macro completes all the same; no exception is thrown. *)
Theorem check_data_discards_synchronize_failure :
  let enqueued :=
    (let! varname := vector_ctor 4 in
     CUDA_CHECK_THROW
       (cudaMemcpyAsync varname 100 16 cudaMemcpyDeviceToHost 7%nat) ;;;
     ret varname) rt_pending_fault in
  enqueued.1 = Normal 0%nat ∧
  (cudaStreamSynchronize 7%nat enqueued.2).1 = Normal cudaErrorLaunchFailure ∧
  (CHECK_DATA 100 4 7%nat rt_pending_fault).1 = Normal 0%nat.
Proof. vm_compute. done. Qed.

(** C3, on a stream whose pending work fails: the snapshot returns
    normally four value-initialized elements, none of them read from the
    buffer, which holds [1.0, 2.0, 3.0, 4.0], and the context is left with
    the error that the synchronize reported. *)
Theorem snapshot_returns_unpopulated_vector :
  (snapshot 100 4 7%nat rt_pending_fault).1 = Normal [0; 0; 0; 0] ∧
  read_cells (dev rt_pending_fault) 100 4 = Some [f1_0; f2_0; f3_0; f4_0] ∧
  sticky (snapshot 100 4 7%nat rt_pending_fault).2 = cudaErrorLaunchFailure.
Proof. vm_compute. done. Qed.

Lemma snapshot_is_full_stream_barrier_witness :
  snapshot 100 4 7%nat rt_pending_store
    = (Normal [f2_0; f2_0; f3_0; f4_0],
       (snapshot 100 4 7%nat rt_pending_store).2) ∧
  streams (snapshot 100 4 7%nat rt_pending_store).2 !! 7%nat = Some [] ∧
  cudaStreamSynchronize 7%nat (snapshot 100 4 7%nat rt_pending_store).2
    = (Normal (sticky (snapshot 100 4 7%nat rt_pending_store).2),
       (snapshot 100 4 7%nat rt_pending_store).2).
Proof.
  assert (snapshot 100 4 7%nat rt_pending_store
          = (Normal [f2_0; f2_0; f3_0; f4_0],
             (snapshot 100 4 7%nat rt_pending_store).2)) as Hsnap
    by (vm_compute; reflexivity).
  split; [exact Hsnap|].
  exact (snapshot_is_full_stream_barrier rt_pending_store 100 4 7%nat _ _ Hsnap).
Defined.

Lemma snapshot_of_zero_elements_witness :
  ∃ rt',
    snapshot 100 0 7%nat rt_pending_store = (Normal [], rt') ∧
    CHECK_DATA 100 0 7%nat rt_pending_store =
      (let! varname := vector_ctor 0 in
       let! _ := cudaStreamSynchronize 7%nat in
       ret varname) rt_pending_store ∧
    streams rt' !! 7%nat = Some [].
Proof.
  apply (snapshot_of_zero_elements rt_pending_store 100 7%nat
           [op_store 100 f2_0]); reflexivity.
Defined.

End SnapshotFacts.

(* ===================================================================== *)
(** * Part IV.  Further properties of the accessor generators             *)
(* ===================================================================== *)

Module AccessorText.
Import Accessor AccessorFacts.

Section Labels.

Context {value : Type}.
Implicit Types (text : list (item value)) (ps : list (property value)).

Lemma elaborate_app cur text1 text2 :
  elaborate cur (text1 ++ text2)
  = elaborate cur text1 ++ elaborate (access_after cur text1) text2.
Proof.
  revert cur. induction text1 as [|[a|d] text1 IH]; intros cur; simpl.
  - done.
  - apply IH.
  - by rewrite IH.
Qed.

Lemma access_after_app cur text1 text2 :
  access_after cur (text1 ++ text2)
  = access_after (access_after cur text1) text2.
Proof.
  revert cur. induction text1 as [|[a|d] text1 IH]; intros cur; simpl; auto.
Qed.

Lemma elaborate_expand_text cur (p : property value) :
  elaborate cur (expand_text p) = expand p.
Proof. unfold expand_text, expand. by destruct (p_kind p). Qed.

Lemma access_after_expand_text cur (p : property value) :
  access_after cur (expand_text p) = public.
Proof. unfold expand_text. by destruct (p_kind p). Qed.

(** X1: wherever a property macro is expanded, its data member is private
    and its accessors are public whatever access was in force before it,
    and the text that follows the macro is read with [public] in force. *)
Theorem property_macro_resets_access cur text (p : property value) text' :
  elaborate cur (text ++ expand_text p ++ text')
  = elaborate cur text ++ expand p ++ elaborate public text'.
Proof.
  rewrite elaborate_app, elaborate_app.
  by rewrite elaborate_expand_text, access_after_expand_text.
Qed.

(** X2: a class or struct whose body consists of property macros has
    exactly the members of [class_body], with the same access under either
    class key. *)
Theorem class_of_macros_elaborates k ps :
  elaborate (default_access k) (concat (expand_text <$> ps)) = class_body ps.
Proof.
  unfold class_body. generalize (default_access k).
  induction ps as [|p ps IH]; intros cur; simpl; [done|].
  rewrite elaborate_app, elaborate_expand_text, access_after_expand_text.
  by rewrite IH.
Qed.

End Labels.

Section Sequences.

Context {value : Type}.
Implicit Types (body : list (member value)) (o : gmap string value).
Implicit Types (calls : list (string * list value)).





End Sequences.

Section Identifiers.

Context {value : Type}.
Implicit Types (ps : list (property value)).

Lemma symbols_expand (p : property value) s :
  s ∈ symbols (expand p) →
  s = p_name p ∨ s = "get_" +:+ p_name p ∨ s = "set_" +:+ p_name p.
Proof.
  unfold symbols, expand, READWRITE_PROPERTY, READONLY_PROPERTY.
  destruct (p_kind p); simpl; intros Hs;
    repeat (apply elem_of_cons in Hs as [->|Hs]; [by eauto|]);
    by apply elem_of_nil in Hs.
Qed.

Lemma symbols_class_body ps s :
  s ∈ symbols (class_body ps) →
  ∃ p, p ∈ ps ∧
       (s = p_name p ∨ s = "get_" +:+ p_name p ∨ s = "set_" +:+ p_name p).
Proof.
  unfold symbols. intros (m & -> & (p & Hp & Hm)%elem_of_class_body)%list_elem_of_fmap.
  exists p. split; [done|]. apply symbols_expand.
  by apply (list_elem_of_fmap_2 (λ m, symbol m.2)).
Qed.

(** X5: a class of property macros is well formed as soon as the property
    names are pairwise different and none of them itself begins with
    [get_] or [set_]: token pasting then never produces the same identifier
    twice. *)
Theorem distinct_plain_names_wf ps :
  NoDup (p_name <$> ps) →
  (∀ p s, p ∈ ps → p_name p ≠ "get_" +:+ s ∧ p_name p ≠ "set_" +:+ s) →
  wf_class (class_body ps).
Proof.
  unfold wf_class. induction ps as [|a ps IH]; intros Hnd Hplain.
  - apply NoDup_nil_2.
  - rewrite fmap_cons in Hnd. apply NoDup_cons in Hnd as [Hfresh Hnd].
    assert (Ha : ∀ s, p_name a ≠ "get_" +:+ s ∧ p_name a ≠ "set_" +:+ s).
    { intros s. apply Hplain. by left. }
    assert (Hps : ∀ p s, p ∈ ps →
              p_name p ≠ "get_" +:+ s ∧ p_name p ≠ "set_" +:+ s).
    { intros p s Hp. apply Hplain. by right. }
    unfold class_body, symbols. simpl. rewrite fmap_app.
    apply NoDup_app. split; [|split].
    + pose proof (Ha (p_name a)) as [Hg Hs].
      unfold expand, READWRITE_PROPERTY, READONLY_PROPERTY.
      destruct (p_kind a); simpl; repeat apply NoDup_cons_2;
        try apply NoDup_nil_2; rewrite ?not_elem_of_cons;
        repeat split; try apply not_elem_of_nil; done.
    + intros s Hs Hs'.
      apply (symbols_expand a) in Hs.
      apply (symbols_class_body ps) in Hs' as (p & Hp & Hs').
      assert (p_name a ≠ p_name p) as Hne.
      { intros Heq. apply Hfresh. rewrite Heq.
        by apply (list_elem_of_fmap_2 p_name). }
      pose proof (Ha (p_name p)) as [Ha1 Ha2].
      pose proof (Hps p (p_name a) Hp) as [Hp1 Hp2].
      destruct Hs as [-> | [-> | ->]], Hs' as [Hs' | [Hs' | Hs']];
        try congruence.
      * by apply (inj (String.append "get_")) in Hs'.
      * simpl in Hs'. discriminate.
      * simpl in Hs'. discriminate.
      * by apply (inj (String.append "set_")) in Hs'.
    + by apply IH.
Qed.

(** A pasted identifier is longer than the name it was pasted from. *)
Lemma pasted_name_differs (prefix n : string) :
  prefix ≠ "" → n ≠ prefix +:+ n.
Proof.
  intros Hp Heq. apply (f_equal String.length) in Heq.
  assert (∀ a b, String.length (a +:+ b)
                 = (String.length a + String.length b)%nat) as Hlen.
  { intros a b. induction a as [|c a IH]; [done|].
    change (S (String.length (a +:+ b))
            = S (String.length a + String.length b)). by rewrite IH. }
  rewrite Hlen in Heq. destruct prefix; [done|]. simpl in Heq. lia.
Qed.

(** Two properties of a well-formed class that declare one identifier in
    common are the same property. *)
Lemma shared_symbol_same_property ps (p q : property value) s :
  wf_class (class_body ps) → p ∈ ps → q ∈ ps →
  s ∈ symbols (expand p) → s ∈ symbols (expand q) → p = q.
Proof.
  unfold wf_class, symbols, class_body.
  induction ps as [|a ps IH]; intros Hwf Hp Hq Hsp Hsq.
  - by apply elem_of_nil in Hp.
  - simpl in Hwf. rewrite fmap_app in Hwf.
    apply NoDup_app in Hwf as (_ & Hdisj & Hnd).
    assert (Hthere : ∀ r, r ∈ ps → s ∈ (λ m, symbol m.2) <$> expand r →
              s ∈ (λ m, symbol m.2) <$> concat (expand <$> ps)).
    { intros r Hr (m & -> & Hm)%list_elem_of_fmap.
      apply (list_elem_of_fmap_2 (λ m, symbol m.2)).
      apply (elem_of_class_body ps). eauto. }
    apply elem_of_cons in Hp as [->|Hp]; apply elem_of_cons in Hq as [->|Hq].
    + done.
    + exfalso. apply (Hdisj _ Hsp). by apply (Hthere q).
    + exfalso. apply (Hdisj _ Hsq). by apply (Hthere p).
    + by apply IH.
Qed.

(** X6: a class that declares a property and a second property named like
    one of the accessors pasted for the first ([get_] followed by its name,
    or [set_] followed by its name when it is read-write) is not well
    formed. *)
Theorem accessor_named_property_rejected ps (p q : property value) :
  p ∈ ps → q ∈ ps →
  p_name q = "get_" +:+ p_name p ∨
  (p_kind p = readwrite ∧ p_name q = "set_" +:+ p_name p) →
  ¬ wf_class (class_body ps).
Proof.
  intros Hp Hq Hname Hwf.
  assert (p_name q ∈ symbols (expand q)) as Hsq.
  { apply (list_elem_of_fmap_2' (λ m, symbol m.2) _ _ _ (expand_field q)).
    done. }
  assert (p_name q ∈ symbols (expand p)) as Hsp.
  { destruct Hname as [->|[Hrw ->]].
    - by apply (list_elem_of_fmap_2' (λ m, symbol m.2) _ _ _ (expand_getter p)).
    - unfold symbols, expand. rewrite Hrw. unfold READWRITE_PROPERTY. simpl.
      do 2 right. left. }
  pose proof (shared_symbol_same_property ps p q (p_name q) Hwf Hp Hq Hsp Hsq)
    as ->.
  destruct Hname as [Heq|[_ Heq]]; by apply pasted_name_differs in Heq.
Qed.

End Identifiers.

(** ** The sample classes *)




Lemma distinct_plain_names_wf_witness : wf_class camera.
Proof.
  apply (distinct_plain_names_wf camera_props).
  - apply (bool_decide_unpack _). vm_compute. exact I.
  - intros p s Hp. unfold camera_props in Hp.
    repeat (apply elem_of_cons in Hp as [->|Hp];
            [split; simpl; discriminate|]).
    by apply elem_of_nil in Hp.
Defined.

Lemma accessor_named_property_rejected_witness :
  ¬ wf_class (class_body clash_props).
Proof.
  apply (accessor_named_property_rejected clash_props
           (Property readonly "int" "x" 0)
           (Property readwrite "int" "get_x" 1)).
  - apply elem_of_cons. by left.
  - apply elem_of_cons. right. apply elem_of_cons. by left.
  - left. reflexivity.
Defined.

End AccessorText.

(* ===================================================================== *)
(** * Part V.  Further properties of the snapshot macro                   *)
(* ===================================================================== *)

Module SnapshotFrame.
Import Snapshot SnapshotFacts.

Section Helpers.

Context {T : Type} `{ET : ElemType T}.
Implicit Types (rt : runtime T) (q : list (op T)).

Lemma max_size_le_PTRDIFF_MAX : max_size ≤ PTRDIFF_MAX.
Proof.
  unfold max_size, PTRDIFF_MAX. pose proof sizeof_pos.
  apply Z.div_le_upper_bound; nia.
Qed.

Lemma to_size_t_negative z : - 2 ^ 63 ≤ z < 0 → to_size_t z = z + 2 ^ 64.
Proof.
  intros Hz. unfold to_size_t. symmetry.
  apply (Z.mod_unique_pos z (2 ^ 64) (-1)); lia.
Qed.

Lemma vector_ctor_host_avail n rt p rt1 :
  vector_ctor n rt = (Normal p, rt1) →
  host_avail rt1 = (host_avail rt - Z.to_N (n * sizeof))%N ∧
  n * sizeof ≤ Z.of_N (host_avail rt).
Proof.
  unfold vector_ctor. repeat case_decide; intros [= <- <-]; simpl.
  split; [done|lia].
Qed.

Lemma cudaMemcpyAsync_other_streams dst src count kind S rt r rt' S' :
  cudaMemcpyAsync dst src count kind S rt = (r, rt') → S' ≠ S →
  streams rt' !! S' = streams rt !! S'.
Proof.
  unfold cudaMemcpyAsync.
  repeat (case_decide || case_match); intros ? Hne; simplify_eq/=;
    try done.
  by rewrite lookup_insert_ne.
Qed.

Lemma cudaMemcpyAsync_host_avail dst src count kind S rt r rt' :
  cudaMemcpyAsync dst src count kind S rt = (r, rt') →
  host_avail rt' = host_avail rt.
Proof.
  unfold cudaMemcpyAsync.
  repeat (case_decide || case_match); intros ?; by simplify_eq/=.
Qed.

Lemma cudaStreamSynchronize_other_streams S rt S' :
  S' ≠ S →
  streams (cudaStreamSynchronize S rt).2 !! S' = streams rt !! S'.
Proof.
  intros Hne. unfold cudaStreamSynchronize.
  case_decide; [|done]. destruct (streams rt !! S) as [q|]; [|done].
  destruct (run_ops q (dev rt) (host rt)) as [[e d] h]. simpl.
  by rewrite lookup_insert_ne.
Qed.

(** What a completed expansion is known to have done. *)
Lemma CHECK_DATA_completed_state B N S rt v rt' :
  CHECK_DATA B N S rt = (Normal v, rt') →
  0 ≤ to_size_t N ≤ max_size ∧
  host rt !! v = None ∧
  sticky rt = cudaSuccess ∧
  streams rt' !! S = Some [] ∧
  host_avail rt' = (host_avail rt - Z.to_N (to_size_t N * sizeof))%N ∧
  ∃ vs, host rt' !! v = Some vs ∧ length vs = Z.to_nat (to_size_t N).
Proof.
  intros (rt1 & rt2 & Hctor & Hcopy & ->)%CHECK_DATA_Normal.
  pose proof (vector_ctor_host_avail _ _ _ _ Hctor) as [Hav _].
  apply vector_ctor_Normal in Hctor
    as (Hmax & Hfresh & Hhost & Hdev & Hstr & Hst).
  destruct (accepted_stream_known _ _ _ _ _ _ _ Hcopy) as [q2 Hq2].
  pose proof Hcopy as (Hst1 & Hst2 & _ & Hh2 & _)%cudaMemcpyAsync_accepted.
  pose proof (cudaMemcpyAsync_host_avail _ _ _ _ _ _ _ _ Hcopy) as Hav2.
  pose proof (to_size_t_range N).
  split; [lia|]. split; [done|]. split; [congruence|].
  erewrite cudaStreamSynchronize_runs by done. simpl.
  split; [by rewrite lookup_insert_eq|]. split; [congruence|].
  destruct (run_ops q2 (dev rt2) (host rt2)) as [[e d] h] eqn:Hrun. simpl.
  destruct (run_ops_host_length _ _ _ _ _ _ v
              (replicate (Z.to_nat (to_size_t N)) value_init) Hrun)
    as (b & Hb & Hlen).
  { rewrite Hh2, Hhost. apply lookup_insert_eq. }
  exists b. split; [done|]. by rewrite Hlen, length_replicate.
Qed.

(** A copy that runs alone leaves device memory and every other host
    allocation as they were, whether it succeeds or not. *)
Lemma run_copy_alone dst src count (d : gmap Z T) (h : gmap nat (list T))
    e d1 h1 :
  run_ops [op_memcpy_d2h dst src count] d h = (e, d1, h1) →
  d1 = d ∧ ∀ p, p ≠ dst → h1 !! p = h !! p.
Proof.
  simpl. destruct (read_cells d src _) as [vs|]; [|by intros [= _ <- <-]].
  destruct (h !! dst) as [buf|]; [|by intros [= _ <- <-]].
  case_decide; intros [= _ <- <-]; [|done].
  split; [done|]. intros p Hp. by rewrite lookup_insert_ne.
Qed.

(** On an idle stream the only work the synchronize finds is the macro's
    own copy, which touches nothing but the vector. *)
Lemma CHECK_DATA_idle_memory B N S rt v rt' :
  streams rt !! S = Some [] →
  CHECK_DATA B N S rt = (Normal v, rt') →
  dev rt' = dev rt ∧ ∀ p, p ≠ v → host rt' !! p = host rt !! p.
Proof.
  intros Hidle (rt1 & rt2 & Hctor & Hcopy & ->)%CHECK_DATA_Normal.
  apply vector_ctor_Normal in Hctor as (_ & _ & Hhost & Hdev & Hstr & _).
  apply cudaMemcpyAsync_accepted in Hcopy
    as (_ & Hst & Hd2 & Hh2 & q & Hq & Hcase).
  rewrite Hstr, Hidle in Hq. injection Hq as <-.
  assert (∀ p, p ≠ v → host rt2 !! p = host rt !! p) as Hframe.
  { intros p Hp. by rewrite Hh2, Hhost, lookup_insert_ne. }
  destruct Hcase as [[_ ->]|[_ Hs2]].
  - erewrite cudaStreamSynchronize_runs; [|done|by rewrite Hstr].
    simpl. split; [done|]. intros p Hp. rewrite <- Hframe by done.
    by rewrite Hhost.
  - erewrite cudaStreamSynchronize_runs;
      [|done|rewrite Hs2; apply lookup_insert_eq].
    destruct (run_ops _ (dev rt2) (host rt2)) as [[e d] h] eqn:Hrun.
    apply run_copy_alone in Hrun as [-> Hh]. simpl.
    split; [congruence|]. intros p Hp. rewrite Hh by done. by apply Hframe.
Qed.

(** *** Argument texts without side effects *)

Lemma eval_product_times (m : mult_expr T) N k rt :
  (∀ rt0, eval_mult m rt0 = (Normal N, rt0)) →
  eval_add (times (a_mult m) (ret k)) rt = (Normal (N * k), rt).
Proof. intros Hm. simpl. unfold bind, ret. by rewrite Hm. Qed.

Lemma eval_sum (a : add_expr T) (m : mult_expr T) x y rt :
  (∀ rt0, eval_add a rt0 = (Normal x, rt0)) →
  (∀ rt0, eval_mult m rt0 = (Normal y, rt0)) →
  eval_add (a_add a m) rt = (Normal (x + y), rt).
Proof. intros Ha Hm. simpl. unfold bind, ret. by rewrite Ha, Hm. Qed.

(** In [a + m * k] the factor reaches [m] only. *)
Lemma eval_sum_times (a : add_expr T) (m : mult_expr T) x y k rt :
  (∀ rt0, eval_add a rt0 = (Normal x, rt0)) →
  (∀ rt0, eval_mult m rt0 = (Normal y, rt0)) →
  eval_add (times (a_add a m) (ret k)) rt = (Normal (x + y * k), rt).
Proof. intros Ha Hm. simpl. unfold bind, ret. by rewrite Ha, Hm. Qed.

(** The first two statements, for a [data_size] whose two occurrences
    evaluate without side effects to [n] and, in front of
    [* sizeof(data_type)], to [c]. *)
Lemma CHECK_DATA_enqueue_text_pure B (e : add_expr T) S n c rt :
  (∀ rt0, eval_add e rt0 = (Normal n, rt0)) →
  (∀ rt0, eval_add (times e (ret sizeof)) rt0 = (Normal c, rt0)) →
  CHECK_DATA_enqueue_text (ret B) e (ret S) rt =
    match vector_ctor (to_size_t n) rt with
    | (Normal p, rt1) =>
        match cudaMemcpyAsync p B (to_size_t c) cudaMemcpyDeviceToHost S rt1
        with
        | (Normal r, rt2) =>
            if decide (r = cudaSuccess) then (Normal p, rt2)
            else (Throw (cuda_runtime_error r), rt2)
        | (Throw x, rt2) => (Throw x, rt2)
        end
    | (Throw x, rt1) => (Throw x, rt1)
    end.
Proof.
  intros Hn Hc. unfold CHECK_DATA_enqueue_text, CUDA_CHECK_THROW, bind.
  rewrite Hn. destruct (vector_ctor _ rt) as [[p|x] rt1]; [|done].
  unfold ret at 1. rewrite Hc. unfold ret at 1.
  destruct (cudaMemcpyAsync _ _ _ _ _ rt1) as [[r|x] rt2]; [|done].
  by case_decide.
Qed.

(** What the stream and the host hold between the enqueue and the
    synchronize. *)
Lemma CHECK_DATA_enqueue_text_accepted B (e : add_expr T) S n c rt q v rt2 :
  (∀ rt0, eval_add e rt0 = (Normal n, rt0)) →
  (∀ rt0, eval_add (times e (ret sizeof)) rt0 = (Normal c, rt0)) →
  streams rt !! S = Some q →
  to_size_t c ≠ 0 →
  CHECK_DATA_enqueue_text (ret B) e (ret S) rt = (Normal v, rt2) →
  to_size_t n ≤ max_size ∧
  streams rt2 !! S = Some (q ++ [op_memcpy_d2h v B (to_size_t c)]) ∧
  host rt2 !! v = Some (replicate (Z.to_nat (to_size_t n)) value_init).
Proof.
  intros Hn Hc Hq Hne. rewrite (CHECK_DATA_enqueue_text_pure B e S n c) by done.
  destruct (vector_ctor _ rt) as [[p|x] rt1] eqn:Hctor; [|done].
  destruct (cudaMemcpyAsync _ _ _ _ _ rt1) as [[r|x] rt2'] eqn:Hcopy; [|done].
  case_decide as Hr; [|done]. intros [= -> ->]. subst r.
  apply vector_ctor_Normal in Hctor as (Hmax & _ & Hhost & _ & Hstr & _).
  apply cudaMemcpyAsync_accepted in Hcopy
    as (_ & _ & _ & Hh2 & q1 & Hq1 & [[H0 _]|[_ Hs2]]); [done|].
  rewrite Hstr, Hq in Hq1. injection Hq1 as <-.
  split; [done|]. split.
  - rewrite Hs2. apply lookup_insert_eq.
  - rewrite Hh2, Hhost. apply lookup_insert_eq.
Qed.

(** *** Pending work that fails *)

Lemma exec_op_host_allocs o (d : gmap Z T) (h : gmap nat (list T)) d' h' p :
  exec_op o d h = inr (d', h') → is_Some (h' !! p) ↔ is_Some (h !! p).
Proof.
  destruct o as [dst src count|addr v|]; simpl.
  - destruct (read_cells _ _ _) as [vs|]; [|done].
    destruct (h !! dst) as [buf|] eqn:Hb; [|done].
    case_decide; [|done]. intros [= <- <-].
    destruct (decide (dst = p)) as [->|Hne].
    + rewrite lookup_insert_eq, Hb. split; eauto.
    + by rewrite lookup_insert_ne.
  - destruct (d !! addr); by intros [= <- <-].
  - done.
Qed.

Lemma exec_op_host_frame_failed o (d : gmap Z T) (h : gmap nat (list T))
    e p buf :
  exec_op o d h = inl e → h !! p = None →
  (∀ dst src c, o = op_memcpy_d2h dst src c → is_Some (h !! dst)) →
  exec_op o d (<[p := buf]> h) = inl e.
Proof.
  destruct o as [dst src count|addr v|]; simpl; intros Hex Hp Halloc;
    [|by destruct (d !! addr)|done].
  destruct (Halloc dst src count eq_refl) as [b Hb].
  assert (dst ≠ p) as Hne by congruence.
  rewrite lookup_insert_ne by done. rewrite Hb in *.
  destruct (read_cells d src _); [|done]. by case_decide.
Qed.

(** A run sees no difference from a host allocation that none of its
    copies targets. *)
Lemma run_ops_host_frame_any q (d : gmap Z T) (h : gmap nat (list T))
    e d' h' p buf :
  run_ops q d h = (e, d', h') → h !! p = None →
  (∀ dst src c, op_memcpy_d2h dst src c ∈ q → is_Some (h !! dst)) →
  run_ops q d (<[p := buf]> h) = (e, d', <[p := buf]> h').
Proof.
  revert d h. induction q as [|o q IH]; intros d h; simpl.
  - by intros [= <- <- <-].
  - intros Hrun Hp Halloc.
    destruct (exec_op o d h) as [e0|[d0 h0]] eqn:Hex.
    + injection Hrun as <- <- <-.
      rewrite (exec_op_host_frame_failed _ _ _ _ p buf Hex Hp); [done|].
      intros dst src c ->. apply (Halloc dst src c). by left.
    + rewrite (exec_op_host_frame _ _ _ _ _ _ buf Hex Hp).
      apply IH; [done| |].
      * destruct (h0 !! p) eqn:Hp0; [|done].
        assert (is_Some (h !! p)) as [? ?]; [|congruence].
        apply (exec_op_host_allocs _ _ _ _ _ p Hex). eauto.
      * intros dst src c Hin.
        apply (exec_op_host_allocs _ _ _ _ _ dst Hex).
        apply (Halloc dst src c). by right.
Qed.

(** Work enqueued behind a failure never runs. *)
Lemma run_ops_app_failed q1 q2 (d : gmap Z T) (h : gmap nat (list T))
    e d1 h1 :
  run_ops q1 d h = (e, d1, h1) → e ≠ cudaSuccess →
  run_ops (q1 ++ q2) d h = (e, d1, h1).
Proof.
  revert d h. induction q1 as [|o q1 IH]; intros d h; simpl.
  - by intros [= <- _ _].
  - destruct (exec_op o d h) as [e0|[d0 h0]]; [done|]. apply IH.
Qed.

(** The macro completes although the pending work fails: the failure
    reaches only the discarded value of the synchronize. *)
Lemma CHECK_DATA_swallows_failure rt B N S q e d' h' :
  0 ≤ N ≤ max_size →
  N * sizeof ≤ Z.of_N (host_avail rt) →
  sticky rt = cudaSuccess →
  streams rt !! S = Some q →
  is_Some (read_cells (dev rt) B (Z.to_nat N)) →
  (∀ dst src c, op_memcpy_d2h dst src c ∈ q → is_Some (host rt !! dst)) →
  run_ops q (dev rt) (host rt) = (e, d', h') →
  e ≠ cudaSuccess →
  ∃ v rt',
    CHECK_DATA B N S rt = (Normal v, rt') ∧
    host rt' !! v = Some (replicate (Z.to_nat N) value_init) ∧
    sticky rt' = e ∧ dev rt' = d'.
Proof.
  intros HN Hav Hst Hq [vs0 Hvs0] Halloc Hrun He.
  assert (to_size_t N = N) as HtN.
  { apply to_size_t_small. pose proof max_size_le_PTRDIFF_MAX as Hm.
    unfold PTRDIFF_MAX in Hm. lia. }
  set (p := fresh (dom (host rt))).
  set (rep := replicate (Z.to_nat N) value_init).
  assert (host rt !! p = None) as Hp by apply not_elem_of_dom, is_fresh.
  pose proof (run_ops_host_frame_any q _ _ _ _ _ p rep Hrun Hp Halloc) as Hrun'.
  pose proof (vector_ctor_ok N rt (proj2 HN) Hav) as Hctor.
  fold p rep in Hctor.
  exists p. destruct (decide (N = 0)) as [->|HN0].
  - eexists. split; [|split; [|split]].
    + apply CHECK_DATA_Normal. eexists _, _. rewrite HtN.
      split; [exact Hctor|]. split; [|reflexivity].
      unfold size_t_mul. rewrite Z.mul_0_l. change (to_size_t 0) with 0.
      by eapply cudaMemcpyAsync_zero.
    + erewrite cudaStreamSynchronize_runs by done. simpl.
      fold rep. rewrite Hrun'. simpl. by rewrite lookup_insert_eq.
    + erewrite cudaStreamSynchronize_runs by done. simpl.
      fold rep. by rewrite Hrun'.
    + erewrite cudaStreamSynchronize_runs by done. simpl.
      fold rep. by rewrite Hrun'.
  - pose proof (elems_of_byte_count N HN) as Helems.
    assert (size_t_mul N sizeof ≠ 0) as Hne.
    { intros H0. by apply HN0, byte_count_zero. }
    set (cp := op_memcpy_d2h p B (size_t_mul N sizeof) : op T).
    pose proof (run_ops_app_failed q [cp] _ _ _ _ _ Hrun' He) as Hall.
    eexists. split; [|split; [|split]].
    + apply CHECK_DATA_Normal. eexists _, _. rewrite HtN.
      split; [exact Hctor|]. split; [|reflexivity].
      eapply cudaMemcpyAsync_enqueue; simpl; try done.
      * by rewrite Helems.
      * by rewrite lookup_insert_eq.
      * rewrite Helems. unfold rep. by rewrite length_replicate.
    + erewrite cudaStreamSynchronize_runs; simpl; [|done|apply lookup_insert_eq].
      fold cp. rewrite Hall. simpl. by rewrite lookup_insert_eq.
    + erewrite cudaStreamSynchronize_runs; simpl; [|done|apply lookup_insert_eq].
      fold cp. by rewrite Hall.
    + erewrite cudaStreamSynchronize_runs; simpl; [|done|apply lookup_insert_eq].
      fold cp. by rewrite Hall.
Qed.

(** On a context that holds an error, an expansion whose vector can be
    built throws that error from the enqueue. *)
Lemma CHECK_DATA_on_failed_context rt B N S :
  sticky rt ≠ cudaSuccess →
  to_size_t N ≤ max_size →
  to_size_t N * sizeof ≤ Z.of_N (host_avail rt) →
  ∃ rt', CHECK_DATA B N S rt = (Throw (cuda_runtime_error (sticky rt)), rt').
Proof.
  intros Hst Hn Hav. rewrite CHECK_DATA_steps.
  rewrite (vector_ctor_ok _ rt Hn Hav).
  unfold cudaMemcpyAsync. simpl. rewrite decide_False by done.
  rewrite decide_False by done. eauto.
Qed.

End Helpers.

Section Properties.

Context {T : Type} `{ET : ElemType T}.
Implicit Types (rt : runtime T) (q : list (op T)).

(** X7: a negative [data_size] of any signed type up to 64 bits becomes a
    count beyond [max_size()]; the macro throws [std::length_error] from the
    vector's constructor and leaves the runtime as it was, whatever the
    stream and the buffer are. *)
Theorem check_data_negative_count rt B N S :
  - 2 ^ 63 ≤ N < 0 →
  CHECK_DATA B N S rt = (Throw std_length_error, rt).
Proof.
  intros HN. rewrite CHECK_DATA_steps. unfold vector_ctor.
  rewrite decide_True; [done|].
  rewrite to_size_t_negative by done.
  pose proof max_size_le_PTRDIFF_MAX as Hm. unfold PTRDIFF_MAX in Hm. lia.
Qed.

(** X8: for a [data_size] written as a product of primaries without side
    effects (a single value included), of value [N], the copy that the
    macro leaves on the stream asks for exactly [N * sizeof(data_type)]
    bytes: the product did not wrap around and stands for exactly as many
    elements as the vector holds. *)
Theorem check_data_copy_covers_vector rt B (m : mult_expr T) N S q v rt2 :
  (∀ rt0, eval_mult m rt0 = (Normal N, rt0)) →
  streams rt !! S = Some q →
  to_size_t N ≠ 0 →
  CHECK_DATA_enqueue_text (ret B) (a_mult m) (ret S) rt = (Normal v, rt2) →
  ∃ buf,
    streams rt2 !! S
      = Some (q ++ [op_memcpy_d2h v B (to_size_t N * sizeof)]) ∧
    host rt2 !! v = Some buf ∧
    Z.of_nat (length buf) = to_size_t N ∧
    elems_of_bytes (to_size_t N * sizeof) = length buf ∧
    to_size_t N * sizeof < 2 ^ 64.
Proof.
  intros Hm Hq HN Hrun.
  assert (to_size_t (N * sizeof) = size_t_mul (to_size_t N) sizeof) as Hc.
  { unfold size_t_mul, to_size_t. by rewrite Z.mul_mod_idemp_l. }
  pose proof (to_size_t_range N) as Hrange.
  destruct (decide (to_size_t N ≤ max_size)) as [Hmax|Hmax].
  - assert (0 ≤ to_size_t N ≤ max_size) as Hn by (split; [apply Hrange|done]).
    pose proof (byte_count_exact (to_size_t N) Hn) as Hexact.
    pose proof (max_size_bytes (to_size_t N) Hn) as Hbytes.
    pose proof sizeof_pos as Hs.
    destruct (CHECK_DATA_enqueue_text_accepted B (a_mult m) S N (N * sizeof)
                rt q v rt2) as (_ & Hqueue & Hbuf); try done.
    + intros rt0. by apply eval_product_times.
    + rewrite Hc, Hexact. nia.
    + rewrite Hc, Hexact in Hqueue.
      eexists. split; [done|]. split; [done|].
      rewrite length_replicate. split; [lia|]. split.
      * unfold elems_of_bytes. by rewrite Z.div_mul by lia.
      * unfold PTRDIFF_MAX in Hbytes. lia.
  - exfalso. revert Hrun.
    rewrite (CHECK_DATA_enqueue_text_pure B (a_mult m) S N (N * sizeof));
      [|done|by intros rt0; apply eval_product_times].
    unfold vector_ctor. rewrite decide_True by lia. done.
Qed.

(** X9: however the macro ends, the work pending on every other stream is
    left as it was: the macro is a barrier for its own stream only. *)
Theorem check_data_other_streams rt B N S r rt' S' :
  CHECK_DATA B N S rt = (r, rt') →
  S' ≠ S →
  streams rt' !! S' = streams rt !! S'.
Proof.
  rewrite CHECK_DATA_steps. intros Hrun Hne.
  destruct (vector_ctor _ rt) as [[p|x] rt1] eqn:Hctor.
  - apply vector_ctor_Normal in Hctor as (_ & _ & _ & _ & Hstr & _).
    destruct (cudaMemcpyAsync _ _ _ _ _ rt1) as [[e|x] rt2] eqn:Hcopy.
    + pose proof (cudaMemcpyAsync_other_streams _ _ _ _ _ _ _ _ _ Hcopy Hne)
        as Hs2.
      case_decide; injection Hrun as <- <-.
      * rewrite cudaStreamSynchronize_other_streams by done. congruence.
      * congruence.
    + injection Hrun as <- <-.
      pose proof (cudaMemcpyAsync_other_streams _ _ _ _ _ _ _ _ _ Hcopy Hne).
      congruence.
  - apply vector_ctor_Throw in Hctor as [-> _]. by injection Hrun as <- <-.
Qed.

(** X10: on an idle stream a completed macro has changed neither the
    device memory nor any host allocation that existed before; the vector
    is an allocation that did not exist before. *)
Theorem check_data_idle_frame rt B N S v rt' :
  streams rt !! S = Some [] →
  CHECK_DATA B N S rt = (Normal v, rt') →
  host rt !! v = None ∧
  dev rt' = dev rt ∧
  ∀ p buf, host rt !! p = Some buf → host rt' !! p = Some buf.
Proof.
  intros Hidle Hrun.
  pose proof (CHECK_DATA_completed_state _ _ _ _ _ _ Hrun)
    as (_ & Hfresh & _).
  destruct (CHECK_DATA_idle_memory _ _ _ _ _ _ Hidle Hrun) as [Hdev Hhost].
  split; [done|]. split; [done|].
  intros p buf Hp. rewrite Hhost; [done|]. congruence.
Qed.

(** X11: two expansions in a row on the same buffer and stream, with host
    memory for both vectors, yield two different vectors holding the same
    elements; the second expansion leaves the first vector as it was. *)
Theorem check_data_twice rt B N S q d' h' :
  0 ≤ N ≤ max_size →
  2 * (N * sizeof) ≤ Z.of_N (host_avail rt) →
  sticky rt = cudaSuccess →
  streams rt !! S = Some q →
  is_Some (read_cells (dev rt) B (Z.to_nat N)) →
  run_ops q (dev rt) (host rt) = (cudaSuccess, d', h') →
  ∃ v1 rt1 v2 rt2,
    CHECK_DATA B N S rt = (Normal v1, rt1) ∧
    CHECK_DATA B N S rt1 = (Normal v2, rt2) ∧
    v1 ≠ v2 ∧
    vector_elems rt2 v1 = vector_elems rt1 v1 ∧
    vector_elems rt2 v2 = vector_elems rt1 v1 ∧
    Z.of_nat (length (vector_elems rt1 v1)) = N.
Proof.
  intros HN Hav Hst Hq Hbuf Hrun.
  pose proof (max_size_bytes N HN) as Hbytes.
  assert (to_size_t N = N) as HtN.
  { apply to_size_t_small. pose proof max_size_le_PTRDIFF_MAX as Hm.
    unfold PTRDIFF_MAX in Hm. lia. }
  destruct (CHECK_DATA_completes rt B N S q d' h' HN ltac:(lia) Hst Hq Hbuf Hrun)
    as (v1 & rt1 & vs & Hfirst & Hv1 & Hvs & Hdev1 & Hst1).
  pose proof (CHECK_DATA_completed_state _ _ _ _ _ _ Hfirst)
    as (_ & _ & _ & Hidle1 & Hav1 & _).
  rewrite HtN in Hav1.
  destruct (CHECK_DATA_completes rt1 B N S [] (dev rt1) (host rt1))
    as (v2 & rt2 & vs2 & Hsecond & Hv2 & Hvs2 & _ & _); try done.
  { rewrite Hav1. lia. }
  { rewrite Hdev1, Hvs. eauto. }
  pose proof (CHECK_DATA_completed_state _ _ _ _ _ _ Hsecond)
    as (_ & Hfresh2 & _).
  destruct (CHECK_DATA_idle_memory _ _ _ _ _ _ Hidle1 Hsecond) as [_ Hkeep].
  assert (v1 ≠ v2) as Hne by congruence.
  assert (vs2 = vs) as -> by congruence.
  exists v1, rt1, v2, rt2. unfold vector_elems.
  rewrite (Hkeep v1 Hne), Hv1, Hv2. simpl.
  repeat split; try done.
  rewrite (read_cells_length _ _ _ _ Hvs). lia.
Qed.

(** X12: when work pending on the stream fails, the macro still completes:
    the vector holds [data_size] value-initialized elements, none read from
    the buffer, and the context is left holding the error. *)
Theorem check_data_completes_on_failed_work rt B N S q e d' h' :
  0 ≤ N ≤ max_size →
  N * sizeof ≤ Z.of_N (host_avail rt) →
  sticky rt = cudaSuccess →
  streams rt !! S = Some q →
  is_Some (read_cells (dev rt) B (Z.to_nat N)) →
  (∀ dst src c, op_memcpy_d2h dst src c ∈ q → is_Some (host rt !! dst)) →
  run_ops q (dev rt) (host rt) = (e, d', h') →
  e ≠ cudaSuccess →
  ∃ rt',
    snapshot B N S rt = (Normal (replicate (Z.to_nat N) value_init), rt') ∧
    sticky rt' = e.
Proof.
  intros HN Hav Hst Hq Hbuf Halloc Hrun He.
  destruct (CHECK_DATA_swallows_failure rt B N S q e d' h'
              HN Hav Hst Hq Hbuf Halloc Hrun He)
    as (v & rt' & Hmacro & Hv & Hst' & _).
  exists rt'. split; [|done].
  apply snapshot_Normal. exists v. split; [done|].
  unfold vector_elems. by rewrite Hv.
Qed.

(** X13: the failure that one expansion let pass is thrown by the next
    one, on whatever buffer and stream, as soon as its vector is built. *)
Theorem check_data_failure_surfaces_later rt B N S q e d' h' B2 N2 S2 :
  0 ≤ N ≤ max_size →
  0 ≤ N2 ≤ max_size →
  N * sizeof + N2 * sizeof ≤ Z.of_N (host_avail rt) →
  sticky rt = cudaSuccess →
  streams rt !! S = Some q →
  is_Some (read_cells (dev rt) B (Z.to_nat N)) →
  (∀ dst src c, op_memcpy_d2h dst src c ∈ q → is_Some (host rt !! dst)) →
  run_ops q (dev rt) (host rt) = (e, d', h') →
  e ≠ cudaSuccess →
  ∃ v rt1 rt2,
    CHECK_DATA B N S rt = (Normal v, rt1) ∧
    CHECK_DATA B2 N2 S2 rt1 = (Throw (cuda_runtime_error e), rt2).
Proof.
  intros HN HN2 Hav Hst Hq Hbuf Halloc Hrun He.
  pose proof (max_size_bytes N HN) as Hb1.
  pose proof (max_size_bytes N2 HN2) as Hb2.
  assert (∀ n, 0 ≤ n ≤ max_size → to_size_t n = n) as Hsmall.
  { intros n Hn. apply to_size_t_small.
    pose proof max_size_le_PTRDIFF_MAX as Hm. unfold PTRDIFF_MAX in Hm. lia. }
  destruct (CHECK_DATA_swallows_failure rt B N S q e d' h'
              HN ltac:(lia) Hst Hq Hbuf Halloc Hrun He)
    as (v & rt1 & Hmacro & _ & Hst1 & _).
  pose proof (CHECK_DATA_completed_state _ _ _ _ _ _ Hmacro)
    as (_ & _ & _ & _ & Hav1 & _).
  rewrite (Hsmall N HN) in Hav1.
  destruct (CHECK_DATA_on_failed_context rt1 B2 N2 S2) as [rt2 Hnext].
  - congruence.
  - rewrite (Hsmall N2 HN2). lia.
  - rewrite (Hsmall N2 HN2), Hav1. lia.
  - exists v, rt1, rt2. split; [done|]. by rewrite Hnext, Hst1.
Qed.

(** X14: for a [data_size] written as a sum [a + m] without side
    effects, with [a] positive and elements wider than one byte, the vector
    holds [a + m] elements but the copy that the macro leaves on the stream
    asks for [a + m * sizeof(data_type)] bytes only, fewer than the vector
    occupies: [* sizeof(data_type)] is pasted behind the unparenthesised
    argument and reaches its last operand only. *)
Theorem check_data_sum_argument_copies_short rt B (a : add_expr T)
    (m : mult_expr T) x y S q v rt2 :
  (∀ rt0, eval_add a rt0 = (Normal x, rt0)) →
  (∀ rt0, eval_mult m rt0 = (Normal y, rt0)) →
  0 < x → 0 ≤ y → 1 < sizeof →
  x + y ≤ max_size →
  streams rt !! S = Some q →
  CHECK_DATA_enqueue_text (ret B) (a_add a m) (ret S) rt = (Normal v, rt2) →
  ∃ buf,
    streams rt2 !! S = Some (q ++ [op_memcpy_d2h v B (x + y * sizeof)]) ∧
    host rt2 !! v = Some buf ∧
    Z.of_nat (length buf) = x + y ∧
    x + y * sizeof < (x + y) * sizeof ∧
    (elems_of_bytes (x + y * sizeof) < length buf)%nat.
Proof.
  intros Ha Hm Hx Hy Hs Hmax Hq Hrun.
  assert (0 ≤ x + y ≤ max_size) as Hxy by lia.
  pose proof (max_size_bytes (x + y) Hxy) as Hbytes.
  pose proof max_size_le_PTRDIFF_MAX as HP. unfold PTRDIFF_MAX in *.
  assert (x + y * sizeof < (x + y) * sizeof) as Hshort by nia.
  assert (to_size_t (x + y) = x + y) as Hn by (apply to_size_t_small; lia).
  assert (to_size_t (x + y * sizeof) = x + y * sizeof) as Hc
    by (apply to_size_t_small; nia).
  destruct (CHECK_DATA_enqueue_text_accepted B (a_add a m) S (x + y)
              (x + y * sizeof) rt q v rt2) as (_ & Hqueue & Hbuf); try done.
  - intros rt0. by apply eval_sum.
  - intros rt0. by apply eval_sum_times.
  - rewrite Hc. nia.
  - rewrite Hc in Hqueue. rewrite Hn in Hbuf.
    eexists. split; [done|]. split; [done|].
    rewrite length_replicate. split; [lia|]. split; [done|].
    unfold elems_of_bytes.
    assert ((x + y * sizeof) / sizeof < x + y) as Hdiv
      by (apply Z.div_lt_upper_bound; lia).
    assert (0 ≤ (x + y * sizeof) / sizeof) by (apply Z.div_pos; nia).
    lia.
Qed.

(** X17: when the vector cannot be built, because the count exceeds
    [max_size()] or the host memory does not suffice, the macro throws the
    constructor's exception and leaves the runtime as it was, also on an
    unknown stream, an unallocated buffer or a context that holds an
    error: no CUDA call is reached. *)
Theorem check_data_allocation_failure_first rt B N S :
  max_size < to_size_t N ∨ Z.of_N (host_avail rt) < to_size_t N * sizeof →
  ∃ x,
    CHECK_DATA B N S rt = (Throw x, rt) ∧
    (x = std_length_error ∨ x = std_bad_alloc).
Proof.
  intros Hfail. rewrite CHECK_DATA_steps. unfold vector_ctor.
  destruct (decide (max_size < to_size_t N)); [eauto|].
  destruct Hfail as [?|Hmem]; [done|].
  rewrite decide_True by done. eauto.
Qed.

End Properties.

(** ** The sample runtimes *)

Lemma check_data_negative_count_witness :
  CHECK_DATA 100 (-1) 7%nat rt_idle = (Throw std_length_error, rt_idle).
Proof.
  apply (check_data_negative_count rt_idle 100 (-1) 7%nat). by vm_compute.
Defined.

Lemma check_data_copy_covers_vector_witness :
  ∃ buf,
    streams (CHECK_DATA_enqueue_text (ret 100)
               (a_mult (m_mul (m_primary (ret 2)) (ret 2))) (ret 7%nat)
               rt_pending_store).2 !! 7%nat
      = Some ([op_store 100 f2_0] ++ [op_memcpy_d2h 0%nat 100 (to_size_t 4 * sizeof)]) ∧
    host (CHECK_DATA_enqueue_text (ret 100)
            (a_mult (m_mul (m_primary (ret 2)) (ret 2))) (ret 7%nat)
            rt_pending_store).2 !! 0%nat = Some buf ∧
    Z.of_nat (length buf) = to_size_t 4 ∧
    elems_of_bytes (to_size_t 4 * sizeof) = length buf ∧
    to_size_t 4 * sizeof < 2 ^ 64.
Proof.
  apply (check_data_copy_covers_vector rt_pending_store 100
           (m_mul (m_primary (ret 2)) (ret 2)) 4 7%nat).
  - intros rt0. reflexivity.
  - reflexivity.
  - by vm_compute.
  - vm_compute. reflexivity.
Defined.

(** The argument [3 + 1]: four elements, seven bytes. *)
Example check_data_text_three_plus_one :
  (let! v := CHECK_DATA_text (ret 100)
               (a_add (plain 3) (m_primary (ret 1))) (ret 7%nat) in
   λ rt, (Normal (vector_elems rt v), rt)) rt_idle
  = (Normal [f1_0; 0; 0; 0],
     (CHECK_DATA_text (ret 100) (a_add (plain 3) (m_primary (ret 1)))
        (ret 7%nat) rt_idle).2).
Proof. vm_compute. reflexivity. Qed.

Lemma check_data_sum_argument_copies_short_witness :
  ∃ buf,
    streams (CHECK_DATA_enqueue_text (ret 100)
               (a_add (plain 3) (m_primary (ret 1))) (ret 7%nat)
               rt_idle).2 !! 7%nat
      = Some ([] ++ [op_memcpy_d2h 0%nat 100 (3 + 1 * sizeof)]) ∧
    host (CHECK_DATA_enqueue_text (ret 100)
            (a_add (plain 3) (m_primary (ret 1))) (ret 7%nat)
            rt_idle).2 !! 0%nat = Some buf ∧
    Z.of_nat (length buf) = 3 + 1 ∧
    3 + 1 * sizeof < (3 + 1) * sizeof ∧
    (elems_of_bytes (3 + 1 * sizeof) < length buf)%nat.
Proof.
  apply (check_data_sum_argument_copies_short rt_idle 100
           (plain 3) (m_primary (ret 1)) 3 1 7%nat).
  - intros rt0. reflexivity.
  - intros rt0. reflexivity.
  - lia.
  - lia.
  - by vm_compute.
  - by vm_compute.
  - reflexivity.
  - vm_compute. reflexivity.
Defined.

Lemma check_data_allocation_failure_first_witness :
  ∃ x,
    CHECK_DATA 100 2000 8%nat rt_pending_fault = (Throw x, rt_pending_fault) ∧
    (x = std_length_error ∨ x = std_bad_alloc).
Proof.
  apply (check_data_allocation_failure_first rt_pending_fault 100 2000 8%nat).
  right. by vm_compute.
Defined.

Lemma check_data_other_streams_witness :
  streams (CHECK_DATA 100 4 7%nat rt_two_streams).2 !! 9%nat
  = Some [op_store 103 f1_0].
Proof.
  rewrite (check_data_other_streams rt_two_streams 100 4 7%nat
             (CHECK_DATA 100 4 7%nat rt_two_streams).1
             (CHECK_DATA 100 4 7%nat rt_two_streams).2 9%nat).
  - reflexivity.
  - by destruct (CHECK_DATA 100 4 7%nat rt_two_streams).
  - discriminate.
Defined.

Lemma check_data_idle_frame_witness :
  host rt_idle !! 0%nat = None ∧
  dev (CHECK_DATA 100 4 7%nat rt_idle).2 = dev rt_idle ∧
  ∀ p buf, host rt_idle !! p = Some buf →
           host (CHECK_DATA 100 4 7%nat rt_idle).2 !! p = Some buf.
Proof.
  apply (check_data_idle_frame rt_idle 100 4 7%nat).
  - reflexivity.
  - vm_compute. reflexivity.
Defined.

Lemma check_data_twice_witness :
  ∃ v1 rt1 v2 rt2,
    CHECK_DATA 100 4 7%nat rt_pending_store = (Normal v1, rt1) ∧
    CHECK_DATA 100 4 7%nat rt1 = (Normal v2, rt2) ∧
    v1 ≠ v2 ∧
    vector_elems rt2 v1 = vector_elems rt1 v1 ∧
    vector_elems rt2 v2 = vector_elems rt1 v1 ∧
    Z.of_nat (length (vector_elems rt1 v1)) = 4.
Proof.
  apply (check_data_twice rt_pending_store 100 4 7%nat
           [op_store 100 f2_0] (<[100 := f2_0]> sample_dev) ∅).
  - by vm_compute.
  - by vm_compute.
  - reflexivity.
  - reflexivity.
  - vm_compute. eauto.
  - vm_compute. reflexivity.
Defined.

Lemma check_data_completes_on_failed_work_witness :
  ∃ rt',
    snapshot 100 4 7%nat rt_pending_fault
      = (Normal (replicate (Z.to_nat 4) value_init), rt') ∧
    sticky rt' = cudaErrorLaunchFailure.
Proof.
  apply (check_data_completes_on_failed_work rt_pending_fault 100 4 7%nat
           [op_fault] cudaErrorLaunchFailure sample_dev ∅).
  - by vm_compute.
  - by vm_compute.
  - reflexivity.
  - reflexivity.
  - vm_compute. eauto.
  - intros dst src c Hin%list_elem_of_singleton. discriminate.
  - reflexivity.
  - discriminate.
Defined.

Lemma check_data_failure_surfaces_later_witness :
  ∃ v rt1 rt2,
    CHECK_DATA 100 4 7%nat rt_pending_fault = (Normal v, rt1) ∧
    CHECK_DATA 102 2 7%nat rt1
      = (Throw (cuda_runtime_error cudaErrorLaunchFailure), rt2).
Proof.
  apply (check_data_failure_surfaces_later rt_pending_fault 100 4 7%nat
           [op_fault] cudaErrorLaunchFailure sample_dev ∅ 102 2 7%nat).
  - by vm_compute.
  - by vm_compute.
  - by vm_compute.
  - reflexivity.
  - reflexivity.
  - vm_compute. eauto.
  - intros dst src c Hin%list_elem_of_singleton. discriminate.
  - reflexivity.
  - discriminate.
Defined.

End SnapshotFrame.
